(** * BaRL-SimpleOptions: the options agent

    A shallow embedding of [barl_simpleoptions/options_agent.py]: the value
    table, the execution stack, the discounted return, the two learners
    ([macro_q_learn], [intra_option_learn]), the selector ([select_action])
    and the episode driver ([run_agent]).

    Conventions of the embedding.
    - The numbers of the learners are exact rationals ([Q]); [==] on them is
      [Qeq].  This keeps the keys read and written, the number and the order
      of the updates and the exceptions; a value stated is the exact value of
      the expression, which Python's binary64 floats round at every
      operation.  [Binary64], below, gives [_discounted_return] with that
      rounding.
    - States, actions and options are values hashed by value, as the table's
      keys require; [deepcopy] is then the identity and is left out.
    - The dictionary [self.q_table] is a [gmap] keyed by pairs of hashes;
      every item assignment is also recorded in a write log, so that the
      number and the order of the updates can be stated.
    - An exception is an outcome [Raise e]; the mutated state survives it,
      as it does in Python.
    - [random] is an oracle: a stream of uniform draws and a stream of
      indices, consumed through a position counter.
    - The [while not terminal] loop of [run_agent] may run forever: it is
      given fuel, and running out of fuel is the outcome [OutOfFuel]. *)

From Stdlib Require Import QArith Qpower Lia.
From Stdlib Require SpecFloat.
From stdpp Require Import base option list gmap strings.

Local Open Scope Q_scope.

(** ** Outcomes of a Python call *)

Inductive exn : Type :=
| IndexError
| ValueError
| TypeError
| UnboundLocalError.

Inductive outcome (A : Type) : Type :=
| Ok (a : A)
| Raise (e : exn)
| OutOfFuel.

Arguments Ok {A} a.
Arguments Raise {A} e.
Arguments OutOfFuel {A}.

(** ** Return computation *)

Module Numpy.

(** [np.power(np.full(n, gamma), np.arange(0, n))] *)
Definition power_full_arange (n : nat) (gamma : Q) : list Q :=
  List.map (fun i : nat => gamma ^ Z.of_nat i) (seq 0 n).

(** [np.multiply(a, b)] on two arrays of one shape. *)
Fixpoint multiply (a b : list Q) : list Q :=
  match a, b with
  | x :: a', y :: b' => x * y :: multiply a' b'
  | _, _ => []
  end.

(** [np.sum(a)] *)
Definition sum (a : list Q) : Q := fold_right Qplus 0 a.

End Numpy.

(** [OptionAgent._discounted_return], in exact arithmetic: the value of the
    expression before any rounding.  The float the method returns is
    [Binary64._discounted_return]. *)
Definition _discounted_return (rewards : list Q) (gamma : Q) : Q :=
  let num_rewards := length rewards in
  let gamma_exp := Numpy.power_full_arange num_rewards gamma in
  let discounted_sum_of_rewards := Numpy.sum (Numpy.multiply rewards gamma_exp) in
  discounted_sum_of_rewards.

(** [math.pow(gamma, n)] for a list length [n], in exact arithmetic.  For a
    discount factor in [[0, 1]] the power stays in [[0, 1]], where [math.pow]
    raises no [OverflowError]. *)
Definition math_pow (gamma : Q) (n : nat) : Q := gamma ^ Z.of_nat n.

(** The weights from exponent [k] on: what remains of the array of powers
    once its first [k] entries are dropped. *)
Definition weights_from (gamma : Q) (k n : nat) : list Q :=
  List.map (fun i : nat => gamma ^ Z.of_nat i) (seq k n).

(** ** A state and exception monad *)

Definition M (S A : Type) : Type := S -> outcome A * S.

Section StateMonad.

Context {S : Type}.

Definition ret {A : Type} (a : A) : M S A := fun s => (Ok a, s).

Definition bind {A B : Type} (m : M S A) (k : A -> M S B) : M S B :=
  fun s =>
    match m s with
    | (Ok a, s') => k a s'
    | (Raise e, s') => (Raise e, s')
    | (OutOfFuel, s') => (OutOfFuel, s')
    end.

Definition raise {A : Type} (e : exn) : M S A := fun s => (Raise e, s).

Definition out_of_fuel {A : Type} : M S A := fun s => (OutOfFuel, s).

Definition get : M S S := fun s => (Ok s, s).

Definition modify (f : S -> S) : M S unit := fun s => (Ok tt, f s).

(** A pure computation that may raise, run inside the monad. *)
Definition lift_outcome {A : Type} (o : outcome A) : M S A := fun s => (o, s).

(** [for x in xs: body(x)] *)
Fixpoint for_each {A : Type} (xs : list A) (body : A -> M S unit) : M S unit :=
  match xs with
  | [] => ret tt
  | x :: xs' => bind (body x) (fun _ => for_each xs' body)
  end.

End StateMonad.

Notation "'let!' x ':=' m 'in' k" := (bind m (fun x => k))
  (at level 10, x name, m at level 100, k at level 200, only parsing).

(** Run a computation on a component of a larger state. *)
Definition zoom {S T A : Type} (proj : T -> S) (inj : S -> T -> T)
    (m : M S A) : M T A :=
  fun t => let (o, s') := m (proj t) in (o, inj s' t).

(** ** Python lists *)

Section PythonLists.

Context {A : Type}.

(** [l[-1]] *)
Definition index_last (l : list A) : outcome A :=
  match last l with
  | Some x => Ok x
  | None => Raise IndexError
  end.

(** [l[i]] for [i >= 0] *)
Definition index_at (l : list A) (i : nat) : outcome A :=
  match l !! i with
  | Some x => Ok x
  | None => Raise IndexError
  end.

(** [l.pop(0)]: the list that remains. *)
Definition pop_front (l : list A) : outcome (list A) :=
  match l with
  | [] => Raise IndexError
  | _ :: l' => Ok l'
  end.

(** [l.pop()]: the list that remains. *)
Definition pop_back (l : list A) : outcome (list A) :=
  match l with
  | [] => Raise IndexError
  | _ :: _ => Ok (removelast l)
  end.

End PythonLists.

(** [x < y] on numbers *)
Definition Qlt_bool (x y : Q) : bool := negb (Qle_bool y x).

(** [max(l)]: the first of the greatest items; [ValueError] on the empty list. *)
Definition py_max (l : list Q) : outcome Q :=
  match l with
  | [] => Raise ValueError
  | x :: l' => Ok (fold_left (fun m y => if Qlt_bool m y then y else m) l' x)
  end.

(** ** Hashable values, options and decisions *)

Class Hashable (A : Type) : Type := hash : A -> Z.

Section Model.

Context {State Action : Type}.
Context `{HashState : Hashable State} `{HashAction : Hashable Action}.

(** An [Option] object: its [__hash__], [initiation], [policy] and
    [termination]; a policy returns a primitive action or an option. *)
Inductive Option : Type :=
| mkOption (option_hash : Z)
           (initiation : State -> bool)
           (policy : State -> decision)
           (termination : State -> Q)
with decision : Type :=
| Delegate (o : Option)
| Primitive (a : Action).

Definition option_hash (o : Option) : Z :=
  match o with mkOption h _ _ _ => h end.
Definition initiation (o : Option) : State -> bool :=
  match o with mkOption _ i _ _ => i end.
Definition policy (o : Option) : State -> decision :=
  match o with mkOption _ _ p _ => p end.
Definition termination (o : Option) : State -> Q :=
  match o with mkOption _ _ _ t => t end.

#[export] Instance HashOption : Hashable Option := option_hash.

#[export] Instance HashDecision : Hashable decision :=
  fun d => match d with
           | Delegate o => hash o
           | Primitive a => hash a
           end.

(** [isinstance(d, Option)] *)
Definition isinstance_Option (d : decision) : bool :=
  match d with Delegate _ => true | Primitive _ => false end.

(** ** The environment *)

Record BaseEnvironment : Type := {
  env_internal : Type;
  reset : env_internal -> State * env_internal;
  step : Action -> env_internal -> (State * Q * bool) * env_internal;
  is_state_terminal : State -> bool;
  get_available_options : State -> list Option
}.

(** ** The value table *)

Record ValueTable : Type := {
  q_table : gmap (Z * Z) Q;
  q_writes : list (Z * Z * Q)
}.

Definition empty_table : ValueTable := {| q_table := ∅; q_writes := [] |}.

(** [self.q_table.get(key, 0)] *)
Definition q_get (t : ValueTable) (key : Z * Z) : Q :=
  default 0 (q_table t !! key).

(** [self.q_table[key] = value] *)
Definition q_set (key : Z * Z) (value : Q) : M ValueTable unit :=
  modify (fun t => {| q_table := <[key := value]> (q_table t);
                      q_writes := q_writes t ++ [(key, value)] |}).

(** The hyper-parameters given to [__init__]. *)
Record HyperParameters : Type := {
  epsilon : Q;
  macro_q_alpha : Q;
  intra_option_alpha : Q;
  gamma : Q
}.

End Model.

Arguments Option : clear implicits.
Arguments decision : clear implicits.
Arguments BaseEnvironment : clear implicits.

(** ** The learners *)

Section Learners.

Context {State Action : Type}.
Context `{HashState : Hashable State} `{HashAction : Hashable Action}.

Variable env : BaseEnvironment State Action.
Variable self : HyperParameters.

Abbreviation Option := (Option State Action).

(** [[self.q_table.get((hash(state), hash(o)), 0)
      for o in self.env.get_available_options(state)]] *)
Definition q_values_at (t : ValueTable) (state : State) : list Q :=
  List.map (fun o : Option => q_get t (hash state, hash o))
           (get_available_options env state).

(** The body of the [while] loop of [macro_q_learn].  The local variable
    [q_values] is unbound ([None]) until the non-terminal branch assigns it.
    The value assigned is the exact value of the expression of lines 82-84. *)
Fixpoint macro_q_loop (q_values : option (list Q))
    (termination_state : State) (option : Option)
    (state_trajectory : list State) (rewards : list Q) : M ValueTable unit :=
  match state_trajectory with
  | initiation_state :: ((_ :: _) as state_trajectory') =>
      let! t := get in
      let old_value := q_get t (hash initiation_state, hash option) in
      let discounted_sum_of_rewards := _discounted_return rewards (gamma self) in
      let! q_values :=
        (if negb (is_state_terminal env termination_state)
         then ret (q_values_at t termination_state)
         else match q_values with
              | None => raise UnboundLocalError
              | Some q_values => ret (q_values ++ [0])
              end) in
      let! best := lift_outcome (py_max q_values) in
      let! _ := q_set (hash initiation_state, hash option)
            (old_value + macro_q_alpha self *
               (discounted_sum_of_rewards
                + math_pow (gamma self) (length rewards) * best - old_value)) in
      let! rewards' := lift_outcome (pop_front rewards) in
      macro_q_loop (Some q_values) termination_state option state_trajectory' rewards'
  | _ => ret tt
  end.

(** [OptionAgent.macro_q_learn] *)
Definition macro_q_learn (state_trajectory : list State) (rewards : list Q)
    (option : Option) : M ValueTable unit :=
  let! termination_state := lift_outcome (index_last state_trajectory) in
  macro_q_loop None termination_state option state_trajectory rewards.

(** The condition under which [intra_option_learn] updates [other_option]. *)
Definition intra_option_condition (executed_option other_option : Option)
    (initiation_state : State) : bool :=
  initiation other_option initiation_state
  && (hash (policy executed_option initiation_state) =? hash executed_option)%Z.

(** One intra-option backup: the body of the [if].  The value assigned is
    the exact value of the expression of lines 136-140. *)
Definition intra_option_update (termination_state : State) (rewards : list Q)
    (initiation_state : State) (other_option : Option) : M ValueTable unit :=
  let! t := get in
  let old_value := q_get t (hash initiation_state, hash other_option) in
  let discounted_sum_of_rewards := _discounted_return rewards (gamma self) in
  let! best := lift_outcome (py_max (q_values_at t termination_state)) in
  let next_q_terminates := termination other_option termination_state * best in
  let next_q_continues :=
    (1 - termination other_option termination_state)
    * q_get t (hash termination_state, hash other_option) in
  q_set (hash termination_state, hash other_option)
        (old_value + intra_option_alpha self *
           (discounted_sum_of_rewards
            + math_pow (gamma self) (length rewards)
              * (next_q_continues + next_q_terminates)
            - old_value)).

(** The body of the [while] loop of [intra_option_learn]. *)
Fixpoint intra_option_loop (termination_state : State) (executed_option : Option)
    (state_trajectory : list State) (rewards : list Q) : M ValueTable unit :=
  match state_trajectory with
  | initiation_state :: ((_ :: _) as state_trajectory') =>
      let! _ := for_each (get_available_options env initiation_state)
        (fun other_option =>
           if intra_option_condition executed_option other_option initiation_state
           then intra_option_update termination_state rewards
                  initiation_state other_option
           else ret tt) in
      let! rewards' := lift_outcome (pop_front rewards) in
      intra_option_loop termination_state executed_option state_trajectory' rewards'
  | _ => ret tt
  end.

(** [OptionAgent.intra_option_learn] *)
Definition intra_option_learn (state_trajectory : list State) (rewards : list Q)
    (executed_option : Option) : M ValueTable unit :=
  let! termination_state := lift_outcome (index_last state_trajectory) in
  intra_option_loop termination_state executed_option state_trajectory rewards.

End Learners.

(** ** The agent: selector and episode driver *)

(** What [random.choice] may be given: a sequence, or a generator
    expression (which has no [len]). *)
Inductive iterable (A : Type) : Type :=
| Sequence (items : list A)
| Generator (items : unit -> list A).

Arguments Sequence {A} items.
Arguments Generator {A} items.

(** The random source: the successive results of [random.random()], and the
    successive raw draws behind [random.choice]. *)
Record RandomSource : Type := {
  uniform : nat -> Q;
  raw_index : nat -> nat
}.

Section Driver.

Context {State Action : Type}.
Context `{HashState : Hashable State} `{HashAction : Hashable Action}.

Variable env : BaseEnvironment State Action.
Variable self : HyperParameters.
Variable rng : RandomSource.

Abbreviation Option := (Option State Action).
Abbreviation decision := (decision State Action).

(** The calls made on the environment, for the record. *)
Inductive env_call : Type :=
| CallReset
| CallStep (a : Action).

(** The mutable state: the fields of [self] that change, the environment
    object, and the position in the random source. *)
Record Agent : Type := {
  table : ValueTable;
  executing_options : list Option;
  executing_options_states : list (list State);
  executing_options_rewards : list (list Q);
  environment : env_internal env;
  env_calls : list env_call;
  random_position : nat
}.

Definition set_table (t : ValueTable) (w : Agent) : Agent :=
  {| table := t;
     executing_options := executing_options w;
     executing_options_states := executing_options_states w;
     executing_options_rewards := executing_options_rewards w;
     environment := environment w;
     env_calls := env_calls w;
     random_position := random_position w |}.

Definition set_executing_options (os : list Option) (w : Agent) : Agent :=
  {| table := table w;
     executing_options := os;
     executing_options_states := executing_options_states w;
     executing_options_rewards := executing_options_rewards w;
     environment := environment w;
     env_calls := env_calls w;
     random_position := random_position w |}.

Definition set_executing_options_states (ss : list (list State)) (w : Agent) : Agent :=
  {| table := table w;
     executing_options := executing_options w;
     executing_options_states := ss;
     executing_options_rewards := executing_options_rewards w;
     environment := environment w;
     env_calls := env_calls w;
     random_position := random_position w |}.

Definition set_executing_options_rewards (rs : list (list Q)) (w : Agent) : Agent :=
  {| table := table w;
     executing_options := executing_options w;
     executing_options_states := executing_options_states w;
     executing_options_rewards := rs;
     environment := environment w;
     env_calls := env_calls w;
     random_position := random_position w |}.

Definition set_environment (e : env_internal env) (c : env_call) (w : Agent) : Agent :=
  {| table := table w;
     executing_options := executing_options w;
     executing_options_states := executing_options_states w;
     executing_options_rewards := executing_options_rewards w;
     environment := e;
     env_calls := env_calls w ++ [c];
     random_position := random_position w |}.

Definition advance_random (w : Agent) : Agent :=
  {| table := table w;
     executing_options := executing_options w;
     executing_options_states := executing_options_states w;
     executing_options_rewards := executing_options_rewards w;
     environment := environment w;
     env_calls := env_calls w;
     random_position := S (random_position w) |}.

(** [random.random()] *)
Definition random_random : M Agent Q :=
  let! w := get in
  let! _ := modify advance_random in
  ret (uniform rng (random_position w)).

(** [random.choice(seq)]: [len] of a generator is a [TypeError]; an empty
    sequence is an [IndexError]. *)
Definition random_choice {A : Type} (seq : iterable A) : M Agent A :=
  match seq with
  | Generator _ => raise TypeError
  | Sequence [] => raise IndexError
  | Sequence items =>
      let! w := get in
      let! _ := modify advance_random in
      lift_outcome
        (index_at items (raw_index rng (random_position w) mod length items)%nat)
  end.

(** [self.env.reset()] *)
Definition env_reset : M Agent State :=
  let! w := get in
  let (state, e) := reset env (environment w) in
  let! _ := modify (set_environment e CallReset) in
  ret state.

(** [self.env.step(action)] *)
Definition env_step (action : Action) : M Agent (State * Q * bool) :=
  let! w := get in
  let (result, e) := step env action (environment w) in
  let! _ := modify (set_environment e (CallStep action)) in
  ret result.

(** [(idx for idx, q_value in enumerate(q_values) if q_value == max(q_values))],
    were it ever iterated. *)
Definition argmax_indices (q_values : list Q) : list nat :=
  match py_max q_values with
  | Ok best =>
      List.map fst
        (List.filter (fun iq : nat * Q => Qeq_bool (snd iq) best)
                     (combine (seq 0 (length q_values)) q_values))
  | _ => []
  end.

(** [OptionAgent.select_action] *)
Definition select_action (state : State) : M Agent decision :=
  let! w := get in
  if (length (executing_options w) =? 0)%nat then
    let available_options := get_available_options env state in
    let! u := random_random in
    if Qlt_bool u (epsilon self) then
      let! o := random_choice (Sequence available_options) in
      ret (Delegate o)
    else
      let q_values := q_values_at env (table w) state in
      let! idx := random_choice (Generator (fun _ => argmax_indices q_values)) in
      let! o := lift_outcome (index_at available_options idx) in
      ret (Delegate o)
  else
    let! top := lift_outcome (index_last (executing_options w)) in
    ret (policy top state).

(** [OptionAgent._roll_termination] *)
Definition _roll_termination (option : Option) (state : State) : M Agent bool :=
  let! u := random_random in
  if Qlt_bool (termination option state) u then ret false else ret true.

(** The three [append]s that start an option. *)
Definition push_option (selected_option : Option) (state : State) : M Agent unit :=
  let! _ := modify (fun w =>
              set_executing_options (executing_options w ++ [selected_option]) w) in
  let! _ := modify (fun w =>
              set_executing_options_states (executing_options_states w ++ [[state]]) w) in
  modify (fun w =>
    set_executing_options_rewards (executing_options_rewards w ++ [[]]) w).

(** The two [append]s of the loop below, for index [i]. *)
Definition record_at (next_state : State) (reward : Q) (i : nat) : M Agent unit :=
  let! w := get in
  let! states := lift_outcome (index_at (executing_options_states w) i) in
  let! _ := modify (set_executing_options_states
                      (<[i := states ++ [next_state]]> (executing_options_states w))) in
  let! w := get in
  let! rewards := lift_outcome (index_at (executing_options_rewards w) i) in
  modify (set_executing_options_rewards
            (<[i := rewards ++ [reward]]> (executing_options_rewards w))).

(** [for i in range(len(self.executing_options)): ...append...] *)
Definition record_step (next_state : State) (reward : Q) : M Agent unit :=
  let! w := get in
  for_each (seq 0 (length (executing_options w))) (record_at next_state reward).

(** A learner called on the entries on top of the three stacks. *)
Definition learn_top
    (learn : list State -> list Q -> Option -> M ValueTable unit) : M Agent unit :=
  let! w := get in
  let! states := lift_outcome (index_last (executing_options_states w)) in
  let! rewards := lift_outcome (index_last (executing_options_rewards w)) in
  let! option := lift_outcome (index_last (executing_options w)) in
  zoom table set_table (learn states rewards option).

(** The three [pop]s that end an option. *)
Definition pop_top : M Agent unit :=
  let! w := get in
  let! states := lift_outcome (pop_back (executing_options_states w)) in
  let! _ := modify (set_executing_options_states states) in
  let! w := get in
  let! rewards := lift_outcome (pop_back (executing_options_rewards w)) in
  let! _ := modify (set_executing_options_rewards rewards) in
  let! w := get in
  let! options := lift_outcome (pop_back (executing_options w)) in
  modify (set_executing_options options).

(** The body shared by the two termination loops. *)
Definition learn_and_pop : M Agent unit :=
  let! _ := learn_top (macro_q_learn env self) in
  let! _ := learn_top (intra_option_learn env self) in
  pop_top.

(** [while self._roll_termination(self.executing_options[-1], next_state): ...] *)
Fixpoint terminate_options (fuel : nat) (next_state : State) : M Agent unit :=
  let! w := get in
  let! top := lift_outcome (index_last (executing_options w)) in
  let! terminates := _roll_termination top next_state in
  if terminates then
    match fuel with
    | O => out_of_fuel
    | S fuel' =>
        let! _ := learn_and_pop in
        terminate_options fuel' next_state
    end
  else ret tt.

(** [while len(self.executing_options) > 0: ...] *)
Fixpoint unwind_options (fuel : nat) : M Agent unit :=
  let! w := get in
  if (0 <? length (executing_options w))%nat then
    match fuel with
    | O => out_of_fuel
    | S fuel' =>
        let! _ := learn_and_pop in
        unwind_options fuel'
    end
  else ret tt.

(** [episode_rewards[episode].append(reward)] *)
Definition append_reward (episode_rewards : list (list Q)) (episode : nat)
    (reward : Q) : outcome (list (list Q)) :=
  match episode_rewards !! episode with
  | Some rewards => Ok (<[episode := rewards ++ [reward]]> episode_rewards)
  | None => Raise IndexError
  end.

(** The [else] branch of the body: the selected option is a primitive
    action.  It returns the new values of [state], [terminal] and
    [episode_rewards]; the closing [if terminal:] of the body is part of it,
    as [terminal] is [False] on the other branch. *)
Definition primitive_step (episode : nat) (action : Action)
    (episode_rewards : list (list Q)) : M Agent (State * bool * list (list Q)) :=
  let! result := env_step action in
  let '(next_state, reward, terminal) := result in
  let! episode_rewards := lift_outcome (append_reward episode_rewards episode reward) in
  let! _ := record_step next_state reward in
  let! w := get in
  let! _ := terminate_options (length (executing_options w)) next_state in
  let! _ := (if terminal : bool
             then let! w := get in unwind_options (length (executing_options w))
             else ret tt) in
  ret (next_state, terminal, episode_rewards).

(** One pass through the body of [while not terminal]. *)
Definition loop_body (episode : nat) (state : State)
    (episode_rewards : list (list Q)) : M Agent (State * bool * list (list Q)) :=
  let! selected_option := select_action state in
  match selected_option with
  | Delegate selected_option =>
      let! _ := push_option selected_option state in
      ret (state, false, episode_rewards)
  | Primitive action => primitive_step episode action episode_rewards
  end.

(** [while not terminal: ...] *)
Fixpoint episode_loop (fuel : nat) (episode : nat) (state : State) (terminal : bool)
    (episode_rewards : list (list Q)) : M Agent (list (list Q)) :=
  if terminal then ret episode_rewards
  else
    match fuel with
    | O => out_of_fuel
    | S fuel' =>
        let! r := loop_body episode state episode_rewards in
        let '(state, terminal, episode_rewards) := r in
        episode_loop fuel' episode state terminal episode_rewards
    end.

(** [for episode in range(num_episodes): ...] *)
Fixpoint episodes (fuel : nat) (range : list nat)
    (episode_rewards : list (list Q)) : M Agent (list (list Q)) :=
  match range with
  | [] => ret episode_rewards
  | episode :: range' =>
      let! state := env_reset in
      let! episode_rewards := episode_loop fuel episode state false episode_rewards in
      episodes fuel range' episode_rewards
  end.

(** [OptionAgent.run_agent]; [fuel] bounds the passes of each episode's
    [while not terminal] loop. *)
Definition run_agent (fuel : nat) (num_episodes : Z) : M Agent (list (list Q)) :=
  let episode_rewards := replicate (Z.to_nat num_episodes) [] in
  episodes fuel (seq 0 (Z.to_nat num_episodes)) episode_rewards.

(** The state [__init__] builds around an environment object. *)
Definition init (e : env_internal env) : Agent :=
  {| table := empty_table;
     executing_options := [];
     executing_options_states := [];
     executing_options_rewards := [];
     environment := e;
     env_calls := [];
     random_position := 0 |}.

End Driver.

(** ** The Macro-Q backups of the specification *)

Section MacroQSpec.

Context {State Action : Type}.
Context `{HashState : Hashable State} `{HashAction : Hashable Action}.

Variable env : BaseEnvironment State Action.
Variable self : HyperParameters.

Abbreviation Option := (Option State Action).
(** [max] of a list known to be non-empty. *)
Definition max_of (l : list Q) : Q :=
  match py_max l with
  | Ok best => best
  | _ => 0
  end.

(** The table after an item assignment. *)
Definition assign (t : ValueTable) (key : Z * Z) (value : Q) : ValueTable :=
  {| q_table := <[key := value]> (q_table t);
     q_writes := q_writes t ++ [(key, value)] |}.

(** The Macro-Q backup of the specification for suffix start [k]:
    [old = Q(s_k, o)], [G] the discounted return of [r_k .. r_(n-1)],
    bootstrap factor [gamma^(n-k)] on the best value at [s_n]. *)
Definition macro_q_backup (state_trajectory : list State) (rewards : list Q)
    (o : Option) (t : ValueTable) (k : nat) : ValueTable :=
  match state_trajectory !! k, last state_trajectory with
  | Some s_k, Some s_n =>
      let n := length rewards in
      let old := q_get t (hash s_k, hash o) in
      let G := _discounted_return (drop k rewards) (gamma self) in
      let next_values := q_values_at env t s_n in
      assign t (hash s_k, hash o)
        (old + macro_q_alpha self *
           (G + math_pow (gamma self) (n - k) * max_of next_values - old))
  | _, _ => t
  end.

(** The backups for [k = 0 .. n-1], in this order. *)
Definition macro_q_backups (state_trajectory : list State) (rewards : list Q)
    (o : Option) (t : ValueTable) : ValueTable :=
  fold_left (macro_q_backup state_trajectory rewards o)
            (seq 0 (length rewards)) t.
End MacroQSpec.


(** ** The intra-option backup, by the value it starts from *)

Section IntraOptionSpec.

Context {State Action : Type}.
Context `{HashState : Hashable State} `{HashAction : Hashable Action}.

Variable env : BaseEnvironment State Action.
Variable self : HyperParameters.

(** The value an intra-option backup assigns when it starts from [old]:
    [old + alpha * (G + gamma^len * (continue_term + terminate_term) - old)],
    all table reads being made in [t]. *)
Definition intra_option_target (old : Q) (t : ValueTable) (s_n : State)
    (rewards : list Q) (other : Option State Action) : Q :=
  let G := _discounted_return rewards (gamma self) in
  let terminate_term :=
    termination other s_n * max_of (q_values_at env t s_n) in
  let continue_term :=
    (1 - termination other s_n) * q_get t (hash s_n, hash other) in
  old + intra_option_alpha self *
    (G + math_pow (gamma self) (length rewards) * (continue_term + terminate_term)
     - old).

End IntraOptionSpec.

(** ** The invariant of the execution stack *)

Section StackInvariant.

Context {State Action : Type}.
Variable env : BaseEnvironment State Action.

(** Going up the stack, each reward trajectory is a suffix of the one below
    it: the option above started no earlier than the option below. *)
Definition start_ordered (rewards : list (list Q)) : Prop :=
  forall (i : nat) (older newer : list Q),
    rewards !! i = Some older ->
    rewards !! S i = Some newer ->
    newer `suffix_of` older.

(** Every active option has one more state than rewards. *)
Definition trajectories_aligned (states : list (list State))
    (rewards : list (list Q)) : Prop :=
  Forall2 (fun ss rs => length ss = S (length rs)) states rewards.

Definition stack_inv (w : Agent env) : Prop :=
  length (executing_options_states env w) = length (executing_options env w)
  /\ length (executing_options_rewards env w) = length (executing_options env w)
  /\ trajectories_aligned (executing_options_states env w)
                          (executing_options_rewards env w)
  /\ start_ordered (executing_options_rewards env w).

(** The agent with its three stacks replaced. *)
Definition with_stacks (options : list (Option State Action))
    (states : list (list State)) (rewards : list (list Q)) (w : Agent env) :
    Agent env :=
  set_executing_options_rewards env rewards
    (set_executing_options_states env states
       (set_executing_options env options w)).

(** The stack of [w'] is no deeper than the stack of [w]. *)
Definition no_deeper (w w' : Agent env) : Prop :=
  (length (executing_options env w') <= length (executing_options env w))%nat.

(** The stack of options of [w'] is the one of [w]. *)
Definition same_options (w w' : Agent env) : Prop :=
  executing_options env w' = executing_options env w.

(** The invariant, if it held before, holds after. *)
Definition keeps_inv (w w' : Agent env) : Prop := stack_inv w -> stack_inv w'.

End StackInvariant.

(** ** Relations kept by every step of a computation *)

(** Whatever the outcome of [m], its final state is related by [R] to the
    initial one. *)
Definition steps {S A : Type} (R : S -> S -> Prop) (m : M S A) : Prop :=
  forall s : S, R s (snd (m s)).

(** [m] never stops for want of fuel. *)
Definition finishes {S A : Type} (m : M S A) : Prop :=
  forall s : S, fst (m s) <> OutOfFuel.

(** [t'] extends the write log of [t] by assignments to keys of state [h]. *)
Definition writes_at (h : Z) (t t' : ValueTable) : Prop :=
  exists new : list (Z * Z * Q),
    q_writes t' = q_writes t ++ new
    /\ Forall (fun w : Z * Z * Q => fst (fst w) = h) new.

(** ** Concrete environments *)

Module Examples.

#[export] Instance hash_nat : Hashable nat := Z.of_nat.

Definition everywhere : nat -> bool := fun _ => true.
Definition surely : nat -> Q := fun _ => 1.
Definition never : nat -> Q := fun _ => 0.

(** Two options that take the primitive action 0 and terminate at every step. *)
Definition opt_a : Option nat nat :=
  mkOption 10%Z everywhere (fun _ => Primitive 0%nat) surely.
Definition opt_b : Option nat nat :=
  mkOption 11%Z everywhere (fun _ => Primitive 0%nat) surely.

(** An option that hashes like the action it takes. *)
Definition opt_same_hash : Option nat nat :=
  mkOption 0%Z everywhere (fun _ => Primitive 0%nat) surely.

(** An option that takes another action, 7. *)
Definition opt_other_action : Option nat nat :=
  mkOption 12%Z everywhere (fun _ => Primitive 7%nat) surely.

(** An option whose policy hands over to [opt_a], and that never terminates
    of its own. *)
Definition opt_outer : Option nat nat :=
  mkOption 13%Z everywhere (fun _ => Delegate opt_a) never.

(** A corridor of states 0, 1, 2, ...: every step moves one to the right and
    pays 1; the state [goal] is terminal; [options] are offered everywhere. *)
Definition corridor (goal : nat) (options : list (Option nat nat)) :
    BaseEnvironment nat nat :=
  {| env_internal := nat;
     reset := fun _ => (0%nat, 0%nat);
     step := fun _ pos => ((S pos, 1, (S pos =? goal)%nat), S pos);
     is_state_terminal := fun s => (s =? goal)%nat;
     get_available_options := fun _ => options |}.

(** The default learning rates and discount, with a chosen [epsilon]. *)
Definition params (eps : Q) : HyperParameters :=
  {| epsilon := eps;
     macro_q_alpha := 2 # 10;
     intra_option_alpha := 2 # 10;
     gamma := 9 # 10 |}.

(** A random source whose every uniform draw is [u] and every raw index 0. *)
Definition constant_source (u : Q) : RandomSource :=
  {| uniform := fun _ => u; raw_index := fun _ => 0%nat |}.

(** A table with [Q(0, opt_a) = 0.5] and [Q(0, opt_b) = 0.7]. *)
Definition two_values : ValueTable :=
  {| q_table := <[(0%Z, 11%Z) := 7 # 10]> (<[(0%Z, 10%Z) := 5 # 10]> ∅);
     q_writes := [] |}.

(** A table with [Q(0, opt_same_hash) = 0.5] and [Q(1, opt_same_hash) = 0.7]. *)
Definition two_states : ValueTable :=
  {| q_table := <[(1%Z, 0%Z) := 7 # 10]> (<[(0%Z, 0%Z) := 5 # 10]> ∅);
     q_writes := [] |}.

(** Learning rates and discount [0.5]. *)
Definition halves : HyperParameters :=
  {| epsilon := 0;
     macro_q_alpha := 1 # 2;
     intra_option_alpha := 1 # 2;
     gamma := 1 # 2 |}.

(** A table with [Q(0, opt_same_hash) = 2] and [Q(1, opt_same_hash) = 4].
    With [halves] and a reward of 1, every number the learners compute from
    it is a small dyadic number, which binary64 holds exactly: the floats of
    the code are then the rationals computed here. *)
Definition two_and_four : ValueTable :=
  {| q_table := <[(1%Z, 0%Z) := 4]> (<[(0%Z, 0%Z) := 2]> ∅);
     q_writes := [] |}.

End Examples.

(** ** Frames of the value table *)

(** The entries outside [keys] read the same in [t'] as in [t]. *)
Definition same_outside (keys : list (Z * Z)) (t t' : ValueTable) : Prop :=
  forall key : Z * Z, key ∉ keys -> q_get t' key = q_get t key.

(** The entries of the states hashing differently from [h] read the same in
    [t'] as in [t]. *)
Definition same_off_state (h : Z) (t t' : ValueTable) : Prop :=
  forall key : Z * Z, fst key <> h -> q_get t' key = q_get t key.

Section TerminalSteps.

Context {State Action : Type}.
Variable env : BaseEnvironment State Action.

(** The [terminal] flag returned by [step] agrees with [is_state_terminal]
    on the state returned with it. *)
Definition env_terminal_consistent : Prop :=
  forall (action : Action) (e : env_internal env),
    snd (fst (step env action e)) = true ->
    is_state_terminal env (fst (fst (fst (step env action e)))) = true.

(** The trajectory on top of the stack has at least two states and ends in a
    terminal state. *)
Definition top_ends_terminal (w : Agent env) : Prop :=
  exists (states : list State) (s : State),
    last (executing_options_states env w) = Some states
    /\ (1 < length states)%nat
    /\ last states = Some s
    /\ is_state_terminal env s = true.

End TerminalSteps.

Section StackShape.

Context {State Action : Type}.
Variable env : BaseEnvironment State Action.

(** The options of [w'] are an initial segment, bottom up, of those of [w]. *)
Definition options_prefix (w w' : Agent env) : Prop :=
  executing_options env w' `prefix_of` executing_options env w.

(** All of [w'] is as in [w] but the position in the random source, which
    has not moved back. *)
Definition only_random_advanced (w w' : Agent env) : Prop :=
  table env w' = table env w
  /\ executing_options env w' = executing_options env w
  /\ executing_options_states env w' = executing_options_states env w
  /\ executing_options_rewards env w' = executing_options_rewards env w
  /\ environment env w' = environment env w
  /\ env_calls env w' = env_calls env w
  /\ (random_position env w <= random_position env w')%nat.

End StackShape.

Section IntraOptionKeys.

Context {State Action : Type}.
Context `{HashState : Hashable State} `{HashAction : Hashable Action}.

Variable env : BaseEnvironment State Action.

(** For each suffix start in turn, the key [(s_n, other)] of every option
    offered there whose [initiation] holds there, in the order offered. *)
Definition intra_option_keys (s_n : State) (starts : list State) : list (Z * Z) :=
  flat_map
    (fun s_k : State =>
       List.map (fun other : Option State Action => (hash s_n, hash other))
         (List.filter (fun other : Option State Action => initiation other s_k)
                      (get_available_options env s_k)))
    starts.

End IntraOptionKeys.

(** ** The two-rooms gridworld of the sample implementation *)

Module TwoRooms.

(** An outcome followed by a computation on its value. *)
Definition and_then {A B : Type} (o : outcome A) (k : A -> outcome B) : outcome B :=
  match o with
  | Ok a => k a
  | Raise e => Raise e
  | OutOfFuel => OutOfFuel
  end.

(** [l[i]] for any integer [i]: a negative index counts from the end, an
    index out of range is an [IndexError]. *)
Definition getitem {A : Type} (l : list A) (i : Z) : outcome A :=
  let len := Z.of_nat (length l) in
  let j := (if i <? 0 then i + len else i)%Z in
  if ((0 <=? j) && (j <? len))%Z
  then match l !! Z.to_nat j with
       | Some x => Ok x
       | None => Raise IndexError
       end
  else Raise IndexError.

(** [TwoRoomsState.gridworld]: 0 is floor, 1 is wall. *)
Definition gridworld : list (list Z) :=
  [ [0; 0; 0; 1; 0; 0; 0];
    [0; 0; 0; 0; 0; 0; 0];
    [0; 0; 0; 1; 0; 0; 0] ]%Z.

(** A state: [self.pos], a pair [(y, x)]. *)
Record TwoRoomsState : Type := { pos : Z * Z }.

(** [TwoRoomsState.__eq__] *)
Definition state_eq (s other_state : TwoRoomsState) : bool :=
  let (y, x) := pos s in
  let (y', x') := pos other_state in
  ((y =? y') && (x =? x'))%Z.

(** [self.gridworld[y][x]] *)
Definition cell (y x : Z) : outcome Z :=
  and_then (getitem gridworld y) (fun row => getitem row x).

(** [guard and (self.gridworld[y][x] == 0)], the index read only when the
    guard holds. *)
Definition guarded_floor (guard : bool) (y x : Z) : outcome bool :=
  if guard then and_then (cell y x) (fun c => Ok (c =? 0)%Z) else Ok false.

(** [if condition: available_actions.append(action)] *)
Definition append_if (condition : outcome bool) (action : string)
    (available_actions : list string) : outcome (list string) :=
  and_then condition
    (fun c => Ok (if c : bool then available_actions ++ [action]
                  else available_actions)).

(** [TwoRoomsState.get_available_actions] *)
Definition get_available_actions (s : TwoRoomsState) : outcome (list string) :=
  let available_actions := [] in
  let (y, x) := pos s in
  and_then (append_if (guarded_floor (y - 1 >=? 0)%Z (y - 1) x) "N" available_actions)
    (fun available_actions =>
  and_then (append_if (guarded_floor (y + 1 <=? 2)%Z (y + 1) x) "S" available_actions)
    (fun available_actions =>
  and_then (append_if (guarded_floor (x - 1 >=? 0)%Z y (x - 1)) "W" available_actions)
    (fun available_actions =>
  and_then (append_if (guarded_floor (x + 1 <=? 6)%Z y (x + 1)) "E" available_actions)
    (fun available_actions => Ok available_actions)))).

(** [TwoRoomsState.take_action]: a list of one state, or [None] for an action
    that is none of the four. *)
Definition take_action (s : TwoRoomsState) (action : string) :
    option (list TwoRoomsState) :=
  let (y, x) := pos s in
  if String.eqb action "N" then Some [ {| pos := (y - 1, x)%Z |} ]
  else if String.eqb action "S" then Some [ {| pos := (y + 1, x)%Z |} ]
  else if String.eqb action "W" then Some [ {| pos := (y, x - 1)%Z |} ]
  else if String.eqb action "E" then Some [ {| pos := (y, x + 1)%Z |} ]
  else None.

(** [TwoRoomsState.is_action_legal] *)
Definition is_action_legal (s : TwoRoomsState) (action : string) : outcome bool :=
  and_then (get_available_actions s)
    (fun available_actions => Ok (existsb (String.eqb action) available_actions)).

(** [TwoRoomsState.is_state_legal] *)
Definition is_state_legal (s : TwoRoomsState) : outcome bool :=
  let (y, x) := pos s in
  if ((y <? 0) || (y >? 2))%Z then Ok false
  else if ((x <? 0) || (x >? 6))%Z then Ok false
  else and_then (cell y x)
         (fun c => if (c =? 1)%Z then Ok false else Ok true).

(** [TwoRoomsState.is_initial_state] *)
Definition is_initial_state (s : TwoRoomsState) : bool :=
  let (y, x) := pos s in ((y =? 0) && (x =? 0))%Z.

(** [TwoRoomsState.is_terminal_state] *)
Definition is_terminal_state (s : TwoRoomsState) : bool :=
  let (y, x) := pos s in ((y =? 2) && (x =? 6))%Z.

(** [set().union] of the unpacked lists: the set of their states, states being
    equal when their positions are; a [None] among the lists is a
    [TypeError]. *)
Fixpoint set_union (lists : list (option (list TwoRoomsState))) :
    outcome (gset (Z * Z)) :=
  match lists with
  | [] => Ok ∅
  | None :: _ => Raise TypeError
  | Some states :: lists' =>
      and_then (set_union lists')
        (fun rest => Ok (list_to_set (List.map pos states) ∪ rest))
  end.

(** [TwoRoomsState.get_successors]; the order of the list made of the set is
    not specified, the result is given as the set of positions. *)
Definition get_successors (s : TwoRoomsState) : outcome (gset (Z * Z)) :=
  and_then (get_available_actions s)
    (fun available_actions =>
       let action_successors := List.map (take_action s) available_actions in
       set_union action_successors).

(** The action that undoes a move. *)
Definition opposite (action : string) : string :=
  if String.eqb action "N" then "S"
  else if String.eqb action "S" then "N"
  else if String.eqb action "W" then "E"
  else "W".

(** The state an action leads to, when it is legal in [s]. *)
Definition move (s : TwoRoomsState) (action : string) : option TwoRoomsState :=
  match is_action_legal s action, take_action s action with
  | Ok true, Some [s'] => Some s'
  | _, _ => None
  end.

(** Towards the goal: down to the corridor of row 1 from row 0, east along
    it, up to it from row 2, and down to the goal at its end. *)
Definition towards_goal (s : TwoRoomsState) : string :=
  let (y, x) := pos s in
  if (y =? 0)%Z then "S"
  else if (y =? 1)%Z then (if (x <? 6)%Z then "E" else "S")
  else "N".

(** The state reached by following [towards_goal] for at most [steps] moves,
    stopping at the terminal state. *)
Fixpoint walk (steps : nat) (s : TwoRoomsState) : option TwoRoomsState :=
  if is_terminal_state s then Some s
  else match steps with
       | O => None
       | S steps' =>
           match move s (towards_goal s) with
           | Some s' => walk steps' s'
           | None => None
           end
       end.

End TwoRooms.

(** ** Binary64 arithmetic and the discounted return as numpy computes it *)

(** Python's [float] and numpy's [float64] are IEEE 754 binary64 numbers.
    [spec_float] is the Standard Library's specification of them, with
    rounding to nearest, ties to even.  The learners above work on exact
    rationals, which keeps what they read, write and raise but not the
    rounding of the values; this module gives [_discounted_return] with the
    rounding of every operation. *)
Module Binary64.

Import SpecFloat.

Definition prec : Z := 53.
Definition emax : Z := 1024.

Definition float : Type := spec_float.



Definition add : float -> float -> float := SFadd prec emax.
Definition mul : float -> float -> float := SFmul prec emax.

Definition of_Z (n : Z) : float := binary_normalize prec emax n 0 false.


Definition zero : float := of_Z 0.
Definition one : float := of_Z 1.



(** [pow(x, k)] for an exponent [k = 0, 1, 2, ...], as [np.power] calls it
    on the entries of [np.arange]: 1 for [k = 0], else the float nearest to
    the exact power.  The C library's [pow] need not round to the nearest
    float, but is accurate to less than one unit in the last place: where the
    exact power is itself a float (as for [k = 1], or for [0.75 ^ 2]), it
    returns that float. *)
Definition pow (x : float) (k : nat) : float :=
  match k with
  | O => one
  | S _ =>
      match x with
      | S754_finite s m e =>
          binary_round prec emax (s && Nat.odd k)
            (m ^ Pos.of_nat k) (e * Z.of_nat k)
      | S754_zero s => S754_zero (s && Nat.odd k)
      | S754_infinity s => S754_infinity (s && Nat.odd k)
      | S754_nan => S754_nan
      end
  end.

(** [np.power(np.full(n, gamma), np.arange(0, n))] *)
Definition np_power_full_arange (gamma : float) (n : nat) : list float :=
  List.map (pow gamma) (seq 0 n).

(** [np.multiply] on two arrays of one length. *)
Fixpoint np_multiply (a b : list float) : list float :=
  match a, b with
  | x :: a', y :: b' => mul x y :: np_multiply a' b'
  | _, _ => []
  end.

(** [np.sum]: from [0.0], the entries are added from left to right.  This is
    the order numpy follows on arrays of fewer than eight entries; longer
    ones it adds in blocks, and nothing below is stated about them. *)
Definition np_sum (a : list float) : float := fold_left add a zero.

(** [OptionAgent._discounted_return] *)
Definition _discounted_return (rewards : list float) (gamma : float) : float :=
  np_sum (np_multiply rewards (np_power_full_arange gamma (length rewards))).


End Binary64.
(** * Properties *)

(** ** The discounted return: algebra of the exact value *)

Section DiscountedReturn.

Variable gamma : Q.

Lemma Qpower_succ_nat (i : nat) :
  gamma ^ Z.of_nat (S i) == gamma * gamma ^ Z.of_nat i.
Proof.
  rewrite Nat2Z.inj_succ. unfold Z.succ. rewrite Z.add_comm.
  rewrite Qpower_plus' by lia.
  rewrite Qpower_1_r. reflexivity.
Qed.

Lemma weights_from_succ (k n : nat) :
  weights_from gamma k (S n) = gamma ^ Z.of_nat k :: weights_from gamma (S k) n.
Proof. reflexivity. Qed.

Lemma sum_multiply_cons (x y : Q) (a b : list Q) :
  Numpy.sum (Numpy.multiply (x :: a) (y :: b))
  = x * y + Numpy.sum (Numpy.multiply a b).
Proof. reflexivity. Qed.

Lemma weighted_sum_shift (rewards : list Q) (k : nat) :
  Numpy.sum (Numpy.multiply rewards (weights_from gamma (S k) (length rewards)))
  == gamma * Numpy.sum (Numpy.multiply rewards (weights_from gamma k (length rewards))).
Proof.
  revert k. induction rewards as [| r rewards IH]; intros k.
  - unfold Numpy.sum. simpl. ring.
  - change (length (r :: rewards)) with (S (length rewards)).
    rewrite !weights_from_succ, !sum_multiply_cons.
    rewrite (IH (S k)), Qpower_succ_nat. ring.
Qed.

Lemma discounted_return_nil : _discounted_return [] gamma = 0.
Proof. reflexivity. Qed.

Lemma discounted_return_cons (r : Q) (rewards : list Q) :
  _discounted_return (r :: rewards) gamma
  == r + gamma * _discounted_return rewards gamma.
Proof.
  unfold _discounted_return, Numpy.power_full_arange.
  change (length (r :: rewards)) with (S (length rewards)).
  change (List.map (fun i : nat => gamma ^ Z.of_nat i) (seq 0 (S (length rewards))))
    with (weights_from gamma 0 (S (length rewards))).
  rewrite weights_from_succ, sum_multiply_cons, weighted_sum_shift.
  change (gamma ^ Z.of_nat 0) with 1. unfold weights_from. ring.
Qed.

End DiscountedReturn.

(** ** The Macro-Q learner *)

Ltac run_monad :=
  cbv beta iota delta [bind ret get modify raise out_of_fuel lift_outcome zoom].

Section MacroQ.

Context {State Action : Type}.
Context `{HashState : Hashable State} `{HashAction : Hashable Action}.

Variable env : BaseEnvironment State Action.
Variable self : HyperParameters.

Abbreviation Option := (Option State Action).
Lemma py_max_cons (x : Q) (l : list Q) : py_max (x :: l) = Ok (max_of (x :: l)).
Proof. reflexivity. Qed.

Lemma q_values_at_nonempty (t : ValueTable) (s : State) :
  get_available_options env s <> [] ->
  py_max (q_values_at env t s) = Ok (max_of (q_values_at env t s)).
Proof.
  unfold q_values_at. destruct (get_available_options env s) as [| o os].
  - intros Hne. contradiction.
  - intros _. apply py_max_cons.
Qed.

Lemma drop_cons_inv {A : Type} (k : nat) (l l' : list A) (x : A) :
  drop k l = x :: l' -> l !! k = Some x /\ drop (S k) l = l'.
Proof.
  intros Hdrop. split.
  - rewrite <- (Nat.add_0_r k), <- lookup_drop, Hdrop. reflexivity.
  - replace (S k) with (k + 1)%nat by lia.
    rewrite <- drop_drop, Hdrop. reflexivity.
Qed.

Lemma macro_q_loop_unfold (q_values : option (list Q)) (s_n : State) (o : Option)
    (s s' : State) (rest : list State) (rewards : list Q) :
  macro_q_loop env self q_values s_n o (s :: s' :: rest) rewards
  = (let! t := get in
     let old_value := q_get t (hash s, hash o) in
     let discounted_sum_of_rewards := _discounted_return rewards (gamma self) in
     let! q_values :=
       (if negb (is_state_terminal env s_n)
        then ret (q_values_at env t s_n)
        else match q_values with
             | None => raise UnboundLocalError
             | Some q_values => ret (q_values ++ [0])
             end) in
     let! best := lift_outcome (py_max q_values) in
     let! _ := q_set (hash s, hash o)
                 (old_value + macro_q_alpha self *
                    (discounted_sum_of_rewards
                     + math_pow (gamma self) (length rewards) * best - old_value)) in
     let! rewards' := lift_outcome (pop_front rewards) in
     macro_q_loop env self (Some q_values) s_n o (s' :: rest) rewards').
Proof. reflexivity. Qed.

(** With a terminal last state the loop stops at its first pass, before
    any assignment: [q_values] is read while still unbound. *)
Lemma macro_q_loop_terminal (s_n : State) (o : Option)
    (s s' : State) (rest : list State) (rewards : list Q) (t : ValueTable) :
  is_state_terminal env s_n = true ->
  macro_q_loop env self None s_n o (s :: s' :: rest) rewards t
  = (Raise UnboundLocalError, t).
Proof.
  intros Hterm. rewrite macro_q_loop_unfold. run_monad.
  rewrite Hterm. reflexivity.
Qed.

Lemma macro_q_learn_terminal (state_trajectory : list State) (rewards : list Q)
    (o : Option) (s_n : State) (t : ValueTable) :
  (1 < length state_trajectory)%nat ->
  last state_trajectory = Some s_n ->
  is_state_terminal env s_n = true ->
  macro_q_learn env self state_trajectory rewards o t
  = (Raise UnboundLocalError, t).
Proof.
  intros Hlen Hlast Hterm.
  unfold macro_q_learn, index_last. rewrite Hlast. run_monad.
  destruct state_trajectory as [| s [| s' rest]]; simpl in Hlen; try lia.
  apply macro_q_loop_terminal; assumption.
Qed.

(** With a non-terminal last state that offers an option, the loop from
    suffix start [k] on applies the backups [k .. n-1]. *)
Lemma macro_q_loop_backups (state_trajectory : list State) (all_rewards : list Q)
    (o : Option) (s_n : State) :
  last state_trajectory = Some s_n ->
  is_state_terminal env s_n = false ->
  all_rewards = [] \/ get_available_options env s_n <> [] ->
  forall (rewards : list Q) (states : list State) (k : nat)
         (q_values : option (list Q)) (t : ValueTable),
    drop k state_trajectory = states ->
    drop k all_rewards = rewards ->
    length states = S (length rewards) ->
    macro_q_loop env self q_values s_n o states rewards t
    = (Ok tt,
       fold_left (macro_q_backup env self state_trajectory all_rewards o)
                 (seq k (length rewards)) t).
Proof.
  intros Hlast Hterm Havail.
  induction rewards as [| r rewards IH]; intros states k q_values t Hs Hr Hlen.
  - destruct states as [| s [| s' rest]]; simpl in Hlen; try lia. reflexivity.
  - destruct states as [| s [| s' rest]]; simpl in Hlen; try lia.
    destruct (drop_cons_inv _ _ _ _ Hs) as [Hk Hs'].
    destruct (drop_cons_inv _ _ _ _ Hr) as [_ Hr'].
    assert (Hnk : (length all_rewards - k)%nat = length (r :: rewards)).
    { rewrite <- Hr. rewrite length_drop. reflexivity. }
    rewrite macro_q_loop_unfold. run_monad. rewrite Hterm. cbn [negb].
    assert (Hoffer : get_available_options env s_n <> []).
    { destruct Havail as [Hnil | Hoffer]; [| exact Hoffer].
      rewrite Hnil, drop_nil in Hr. discriminate Hr. }
    rewrite (q_values_at_nonempty t s_n Hoffer).
    cbn [pop_front]. unfold q_set. run_monad.
    rewrite (IH (s' :: rest) (S k) _ _ Hs' Hr') by (simpl; lia).
    cbn [length seq fold_left]. f_equal. f_equal.
    unfold macro_q_backup. rewrite Hk, Hlast, Hr, Hnk. reflexivity.
Qed.

Lemma macro_q_backup_writes (state_trajectory : list State) (rewards : list Q)
    (o : Option) (s_n : State) (t : ValueTable) (k : nat) (s_k : State) :
  last state_trajectory = Some s_n ->
  state_trajectory !! k = Some s_k ->
  exists value : Q,
    q_writes (macro_q_backup env self state_trajectory rewards o t k)
    = q_writes t ++ [((hash s_k, hash o), value)].
Proof.
  intros Hlast Hk. unfold macro_q_backup. rewrite Hk, Hlast.
  eexists. reflexivity.
Qed.

(** The keys written by the backups [k .. k+m-1] are those of the states
    [s_k .. s_(k+m-1)], one each, in order. *)
Lemma macro_q_backups_keys (state_trajectory : list State) (rewards : list Q)
    (o : Option) (s_n : State) :
  last state_trajectory = Some s_n ->
  forall (m k : nat) (t : ValueTable),
    (k + m < length state_trajectory)%nat ->
    List.map fst
      (q_writes (fold_left (macro_q_backup env self state_trajectory rewards o)
                           (seq k m) t))
    = List.map fst (q_writes t)
      ++ List.map (fun s : State => (hash s, hash o))
                  (take m (drop k state_trajectory)).
Proof.
  intros Hlast. induction m as [| m IH]; intros k t Hlen.
  - simpl. rewrite app_nil_r. reflexivity.
  - destruct (lookup_lt_is_Some_2 state_trajectory k) as [s_k Hk]; [lia |].
    cbn [seq fold_left]. rewrite IH by lia.
    destruct (macro_q_backup_writes _ rewards o _ t _ _ Hlast Hk) as [v Hv].
    rewrite Hv, map_app. cbn [List.map fst].
    rewrite (drop_S _ _ _ Hk). cbn [take List.map].
    rewrite <- app_assoc. reflexivity.
Qed.

Lemma macro_q_backups_length (state_trajectory : list State) (rewards : list Q)
    (o : Option) (s_n : State) (t : ValueTable) :
  last state_trajectory = Some s_n ->
  length state_trajectory = S (length rewards) ->
  length (q_writes (macro_q_backups env self state_trajectory rewards o t))
  = (length (q_writes t) + length rewards)%nat.
Proof.
  intros Hlast Hlen.
  assert (Hkeys := macro_q_backups_keys state_trajectory rewards o s_n Hlast
                     (length rewards) 0%nat t).
  apply (f_equal length) in Hkeys; [| simpl; lia].
  rewrite length_app, !length_map, length_take, drop_0 in Hkeys.
  unfold macro_q_backups. lia.
Qed.

(** C7. For a trajectory of [n+1] states and [n] rewards whose last state is
    not terminal (and offers an option whenever [n >= 1], as the environment
    contract requires), [macro_q_learn] returns normally after the backups of
    the specification for [k = 0 .. n-1], each with the discounted return of
    [r_k .. r_(n-1)] and the factor [gamma^(n-k)]: exactly [n] assignments,
    to the keys [(s_0, o) .. (s_(n-1), o)] in this order; none for [n = 0]. *)
Theorem C7_macro_q_learn_suffix_updates
    (state_trajectory : list State) (rewards : list Q) (o : Option)
    (s_n : State) (t : ValueTable) :
  length state_trajectory = S (length rewards) ->
  last state_trajectory = Some s_n ->
  is_state_terminal env s_n = false ->
  rewards = [] \/ get_available_options env s_n <> [] ->
  let t' := macro_q_backups env self state_trajectory rewards o t in
  macro_q_learn env self state_trajectory rewards o t = (Ok tt, t')
  /\ length (q_writes t') = (length (q_writes t) + length rewards)%nat
  /\ List.map fst (q_writes t')
     = List.map fst (q_writes t)
       ++ List.map (fun s : State => (hash s, hash o))
                   (take (length rewards) state_trajectory)
  /\ (rewards = [] -> t' = t).
Proof.
  intros Hlen Hlast Hterm Havail t'. subst t'. split; [| split; [| split]].
  - unfold macro_q_learn, index_last. rewrite Hlast. run_monad.
    apply (macro_q_loop_backups state_trajectory rewards o s_n Hlast Hterm Havail
             rewards state_trajectory 0%nat None t);
      [reflexivity | reflexivity | exact Hlen].
  - apply (macro_q_backups_length _ _ _ s_n); assumption.
  - unfold macro_q_backups.
    rewrite (macro_q_backups_keys _ rewards o _ Hlast) by (simpl; lia).
    rewrite drop_0. reflexivity.
  - intros ->. reflexivity.
Qed.

End MacroQ.

Import Examples.

Lemma C7_macro_q_learn_suffix_updates_witness :
  let env := corridor 5 [opt_a] in
  let state_trajectory := [0; 1; 2]%nat in
  let rewards := [1; 1] in
  let t' := macro_q_backups env (params 0) state_trajectory rewards opt_a empty_table in
  macro_q_learn env (params 0) state_trajectory rewards opt_a empty_table = (Ok tt, t')
  /\ length (q_writes t') = (length (q_writes empty_table) + length rewards)%nat
  /\ List.map fst (q_writes t')
     = List.map fst (q_writes empty_table)
       ++ List.map (fun s : nat => (hash s, hash opt_a))
                   (take (length rewards) state_trajectory)
  /\ (rewards = [] -> t' = empty_table).
Proof.
  apply (C7_macro_q_learn_suffix_updates (corridor 5 [opt_a]) (params 0)
           [0; 1; 2]%nat [1; 1] opt_a 2%nat empty_table).
  - reflexivity.
  - reflexivity.
  - reflexivity.
  - right. discriminate.
Defined.

(** C1. On the one-step trajectory [0, 1] whose last state is terminal,
    [macro_q_learn] does not complete: it raises [UnboundLocalError] at the
    first pass ([q_values.append(0)] with [q_values] unbound) and leaves the
    table as it was, so no backup with [next_values = [0]] is applied. *)
Theorem C1_macro_q_learn_terminal_raises :
  macro_q_learn (corridor 1 [opt_a]) (params 0) [0; 1]%nat [1] opt_a empty_table
  = (Raise UnboundLocalError, empty_table)
  /\ is_state_terminal (corridor 1 [opt_a]) 1%nat = true.
Proof.
  split; [| reflexivity].
  apply (macro_q_learn_terminal (corridor 1 [opt_a]) (params 0) _ _ _ 1%nat);
    [simpl; lia | reflexivity | reflexivity].
Qed.


(** ** Relations kept by every step of a computation *)

Section Steps.

Context {S : Type}.
Variable R : S -> S -> Prop.
Hypothesis R_refl : forall s, R s s.
Hypothesis R_trans : forall a b c, R a b -> R b c -> R a c.

Lemma steps_ret {A : Type} (a : A) : steps R (ret a).
Proof. intros s. apply R_refl. Qed.

Lemma steps_raise {A : Type} (e : exn) : steps R (raise (A := A) e).
Proof. intros s. apply R_refl. Qed.

Lemma steps_out_of_fuel {A : Type} : steps R (out_of_fuel (A := A)).
Proof. intros s. apply R_refl. Qed.

Lemma steps_get : steps R get.
Proof. intros s. apply R_refl. Qed.

Lemma steps_lift_outcome {A : Type} (o : outcome A) : steps R (lift_outcome o).
Proof. intros s. apply R_refl. Qed.

Lemma steps_modify (f : S -> S) : (forall s, R s (f s)) -> steps R (modify f).
Proof. intros Hf s. apply Hf. Qed.

Lemma steps_bind {A B : Type} (m : M S A) (k : A -> M S B) :
  steps R m -> (forall a, steps R (k a)) -> steps R (bind m k).
Proof.
  intros Hm Hk s. unfold bind. specialize (Hm s).
  destruct (m s) as [[a | e |] s1]; simpl in *; try assumption.
  eapply R_trans; [exact Hm | apply Hk].
Qed.

Lemma steps_for_each {A : Type} (xs : list A) (body : A -> M S unit) :
  (forall x, steps R (body x)) -> steps R (for_each xs body).
Proof.
  intros Hbody. induction xs as [| x xs IH]; simpl.
  - apply steps_ret.
  - apply steps_bind; [apply Hbody | intros _; exact IH].
Qed.

End Steps.

(** ** The intra-option learner *)

Section IntraOption.

Context {State Action : Type}.
Context `{HashState : Hashable State} `{HashAction : Hashable Action}.

Variable env : BaseEnvironment State Action.
Variable self : HyperParameters.

Abbreviation Option := (Option State Action).

Lemma writes_at_refl (h : Z) (t : ValueTable) : writes_at h t t.
Proof. exists []. split; [symmetry; apply app_nil_r | constructor]. Qed.

Lemma writes_at_trans (h : Z) (a b c : ValueTable) :
  writes_at h a b -> writes_at h b c -> writes_at h a c.
Proof.
  intros [n1 [E1 F1]] [n2 [E2 F2]]. exists (n1 ++ n2). split.
  - rewrite E2, E1, app_assoc. reflexivity.
  - apply Forall_app. split; assumption.
Qed.

(** One backup, when the last state offers an option: the old value is read
    at [(s_k, other)], the new value is assigned at [(s_n, other)]. *)
Lemma intra_option_update_eq (s_n : State) (rewards : list Q) (s_k : State)
    (other : Option) (t : ValueTable) :
  get_available_options env s_n <> [] ->
  intra_option_update env self s_n rewards s_k other t
  = (Ok tt,
     assign t (hash s_n, hash other)
       (intra_option_target env self (q_get t (hash s_k, hash other))
          t s_n rewards other)).
Proof.
  intros Hoffer. unfold intra_option_update. run_monad.
  rewrite (q_values_at_nonempty env t s_n Hoffer). reflexivity.
Qed.

Lemma intra_option_update_writes (s_n : State) (rewards : list Q) (s_k : State)
    (other : Option) :
  steps (writes_at (hash s_n)) (intra_option_update env self s_n rewards s_k other).
Proof.
  intros t. unfold intra_option_update. run_monad.
  destruct (py_max (q_values_at env t s_n)) as [best | e |]; simpl;
    try apply writes_at_refl.
  eexists. split; [reflexivity |]. repeat constructor.
Qed.

Lemma intra_option_loop_writes (s_n : State) (executed : Option)
    (state_trajectory : list State) :
  forall rewards : list Q,
    steps (writes_at (hash s_n))
          (intra_option_loop env self s_n executed state_trajectory rewards).
Proof.
  pose proof (writes_at_refl (hash s_n)) as Hrefl.
  pose proof (writes_at_trans (hash s_n)) as Htrans.
  induction state_trajectory as [| s states IH]; intros rewards.
  - apply steps_ret; assumption.
  - destruct states as [| s' rest]; [apply steps_ret; assumption |].
    change (intra_option_loop env self s_n executed (s :: s' :: rest) rewards)
      with (let! _ := for_each (get_available_options env s)
                        (fun other_option =>
                           if intra_option_condition executed other_option s
                           then intra_option_update env self s_n rewards s other_option
                           else ret tt) in
            let! rewards' := lift_outcome (pop_front rewards) in
            intra_option_loop env self s_n executed (s' :: rest) rewards').
    apply steps_bind; try assumption.
    + apply steps_for_each; try assumption. intros other.
      destruct (intra_option_condition executed other s).
      * apply intra_option_update_writes.
      * apply steps_ret; assumption.
    + intros _. apply steps_bind; assumption.
Qed.

(** When the executed option's action never hashes like the option itself,
    no option is updated, whatever its own policy. *)
Lemma intra_option_condition_false (executed other : Option) (s : State) :
  hash (policy executed s) <> hash executed ->
  intra_option_condition executed other s = false.
Proof.
  intros Hne. unfold intra_option_condition.
  destruct (Z.eqb_spec (hash (policy executed s)) (hash executed)) as [E | _].
  - contradiction.
  - apply andb_false_r.
Qed.

(** One pass of the loop on a trajectory of two states, when one option is
    offered at the first: the value assigned at [(s_1, other)] starts from the
    value read at [(s_0, other)]. *)
Lemma intra_option_learn_one_step (s_0 s_1 : State) (r : Q)
    (executed other : Option) (t : ValueTable) :
  get_available_options env s_0 = [other] ->
  intra_option_condition executed other s_0 = true ->
  get_available_options env s_1 <> [] ->
  intra_option_learn env self [s_0; s_1] [r] executed t
  = (Ok tt,
     assign t (hash s_1, hash other)
       (intra_option_target env self (q_get t (hash s_0, hash other))
          t s_1 [r] other)).
Proof.
  intros Hoffer Hcond Hnext.
  unfold intra_option_learn, index_last. simpl last. run_monad.
  cbn [intra_option_loop]. rewrite Hoffer. cbn [for_each]. rewrite Hcond.
  run_monad. rewrite (intra_option_update_eq s_1 [r] s_0 other t Hnext).
  reflexivity.
Qed.

End IntraOption.

(** C5. [intra_option_learn([0, 1], [1], o)] with [Q(0, o) = 2],
    [Q(1, o) = 4], rates and discount 0.5 and [o] the one option offered,
    which terminates surely.  The code reads the old value at the key of the
    first state, [Q(0, o) = 2], and assigns
    [2 + 0.5 * (1 + 0.5 * 4 - 2) = 2.5] at the key of the last state,
    [(1, o)]; the entry [(0, o)] keeps the value 2.  An update of [Q(1, o)]
    from its own old value 4, as the claim has it, would assign
    [4 + 0.5 * (1 + 0.5 * 4 - 4) = 3.5].  [macro_q_learn] reads and writes
    one key. *)
Theorem C5_intra_option_learn_old_value_from_first_state :
  let env := corridor 5 [opt_same_hash] in
  let o := opt_same_hash in
  let run := intra_option_learn env halves [0; 1]%nat [1] o two_and_four in
  fst run = Ok tt
  /\ (exists v : Q,
        q_writes (snd run) = [((hash 1%nat, hash o), v)] /\ v == 5 # 2)
  /\ q_get (snd run) (hash 0%nat, hash o) == 2
  /\ q_get (snd run) (hash 1%nat, hash o) == 5 # 2
  /\ intra_option_target env halves (q_get two_and_four (hash 0%nat, hash o))
       two_and_four 1%nat [1] o == 5 # 2
  /\ intra_option_target env halves (q_get two_and_four (hash 1%nat, hash o))
       two_and_four 1%nat [1] o == 7 # 2.
Proof.
  cbv zeta. split; [vm_compute; reflexivity |]. split.
  - eexists. split; [vm_compute; reflexivity |]. vm_compute. reflexivity.
  - repeat split; vm_compute; reflexivity.
Qed.

(** C4. (1) With [opt_a] executed and [opt_b] available, initiable and of the
    same policy (both take action 0), [intra_option_learn] updates neither:
    the test compares the hash of the action taken with the hash of the
    executed option.  (2) When these two hashes happen to agree, an available
    option whose policy takes another action is updated all the same. *)
Theorem C4_intra_option_condition_ignores_other_policy :
  (intra_option_learn (corridor 5 [opt_a; opt_b]) (params 0)
     [0; 1]%nat [1] opt_a empty_table = (Ok tt, empty_table)
   /\ initiation opt_b 0%nat = true
   /\ policy opt_b 0%nat = policy opt_a 0%nat)
  /\ (List.map fst
        (q_writes
           (snd (intra_option_learn (corridor 5 [opt_same_hash; opt_other_action])
                   (params 0) [0; 1]%nat [1] opt_same_hash empty_table)))
      = [(hash 1%nat, hash opt_same_hash); (hash 1%nat, hash opt_other_action)]
      /\ policy opt_other_action 0%nat <> policy opt_same_hash 0%nat).
Proof.
  split; [split; [| split] | split].
  - vm_compute. reflexivity.
  - reflexivity.
  - reflexivity.
  - vm_compute. reflexivity.
  - discriminate.
Qed.

(** ** The selector *)

Lemma bind_Ok_inv {S A B : Type} (m : M S A) (k : A -> M S B) (s s' : S) (b : B) :
  bind m k s = (Ok b, s') ->
  exists (a : A) (s1 : S), m s = (Ok a, s1) /\ k a s1 = (Ok b, s').
Proof.
  unfold bind. destruct (m s) as [[a | e |] s1]; intros H; try discriminate H.
  exists a, s1. split; [reflexivity | exact H].
Qed.

Lemma bind_Ok {S A B : Type} (m : M S A) (k : A -> M S B) (s s1 : S) (a : A) :
  m s = (Ok a, s1) -> bind m k s = k a s1.
Proof. intros H. unfold bind. rewrite H. reflexivity. Qed.

Lemma bind_Raise {S A B : Type} (m : M S A) (k : A -> M S B) (s s1 : S) (e : exn) :
  m s = (Raise e, s1) -> bind m k s = (Raise e, s1).
Proof. intros H. unfold bind. rewrite H. reflexivity. Qed.

Section Selector.

Context {State Action : Type}.
Context `{HashState : Hashable State} `{HashAction : Hashable Action}.

Variable env : BaseEnvironment State Action.
Variable self : HyperParameters.
Variable rng : RandomSource.

Abbreviation Agent := (Agent env).

Lemma random_random_eq (w : Agent) :
  random_random env rng w
  = (Ok (uniform rng (random_position env w)), advance_random env w).
Proof. reflexivity. Qed.

(** With an empty stack, whenever the uniform draw is not below [epsilon],
    [select_action] raises [TypeError]: [random.choice] is handed a
    generator.  The draw has been consumed; nothing else has changed. *)
Lemma select_action_greedy_raises (state : State) (w : Agent) :
  executing_options env w = [] ->
  Qlt_bool (uniform rng (random_position env w)) (epsilon self) = false ->
  select_action env self rng state w = (Raise TypeError, advance_random env w).
Proof.
  intros Hempty Hdraw. unfold select_action.
  rewrite (bind_Ok get _ w w w) by reflexivity.
  rewrite Hempty. cbn [length Nat.eqb].
  rewrite (bind_Ok _ _ _ _ _ (random_random_eq w)).
  rewrite Hdraw. reflexivity.
Qed.

(** A uniform draw, being at least 0, is never below [epsilon = 0]. *)
Lemma draw_not_below_zero (u : Q) : 0 <= u -> Qlt_bool u 0 = false.
Proof.
  intros Hu. unfold Qlt_bool. apply negb_false_iff.
  apply Qle_bool_iff. exact Hu.
Qed.

(** With an empty stack and a draw below [epsilon], the choice is made in
    the sequence of available options. *)
Lemma select_action_explores (state : State) (w : Agent) :
  executing_options env w = [] ->
  Qlt_bool (uniform rng (random_position env w)) (epsilon self) = true ->
  select_action env self rng state w
  = bind (random_choice env rng (Sequence (get_available_options env state)))
         (fun o => ret (Delegate o)) (advance_random env w).
Proof.
  intros Hempty Hdraw. unfold select_action.
  rewrite (bind_Ok get _ w w w) by reflexivity.
  rewrite Hempty. cbn [length Nat.eqb].
  rewrite (bind_Ok _ _ _ _ _ (random_random_eq w)).
  rewrite Hdraw. reflexivity.
Qed.

(** With an option executing, the decision is the one of its policy, and
    nothing changes. *)
Lemma select_action_delegates (state : State) (w : Agent)
    (below : list (Option State Action)) (top : Option State Action) :
  executing_options env w = below ++ [top] ->
  select_action env self rng state w = (Ok (policy top state), w).
Proof.
  intros Hstack. unfold select_action.
  rewrite (bind_Ok get _ w w w) by reflexivity.
  rewrite Hstack, length_app. cbn [length].
  replace (length below + 1 =? 0)%nat with false
    by (symmetry; apply Nat.eqb_neq; lia).
  unfold index_last. rewrite last_snoc. reflexivity.
Qed.

End Selector.

(** C3. With [epsilon = 0], an empty stack and two available options of
    values 0.5 and 0.7 at state 0, [select_action] does not return the option
    of value 0.7: it raises [TypeError], at the first call and again at the
    next one. *)
Theorem C3_select_action_greedy_raises :
  let env := corridor 5 [opt_a; opt_b] in
  let rng := constant_source (1 # 2) in
  let w := set_table env two_values (init env 0%nat) in
  q_values_at env (table env w) 0%nat = [5 # 10; 7 # 10]
  /\ executing_options env w = []
  /\ fst (select_action env (params 0) rng 0%nat w) = Raise TypeError
  /\ fst (select_action env (params 0) rng 0%nat
            (snd (select_action env (params 0) rng 0%nat w))) = Raise TypeError.
Proof.
  intros env rng w.
  assert (Hfirst : select_action env (params 0) rng 0%nat w
                   = (Raise TypeError, advance_random env w)).
  { apply select_action_greedy_raises; reflexivity. }
  split; [reflexivity |]. split; [reflexivity |]. split.
  - rewrite Hfirst. reflexivity.
  - rewrite Hfirst. rewrite select_action_greedy_raises; reflexivity.
Qed.

(** ** The execution stack *)

Section StackLists.

Context {State : Type}.

Lemma start_ordered_nil : start_ordered [].
Proof. intros i older newer H. rewrite lookup_nil in H. discriminate H. Qed.

(** Starting an option keeps the order: its reward trajectory is empty. *)
Lemma start_ordered_push (rewards : list (list Q)) :
  start_ordered rewards -> start_ordered (rewards ++ [[]]).
Proof.
  intros Hord i older newer Hi HSi.
  apply lookup_snoc_Some in HSi as [[Hlt HSi] | [_ <-]].
  - rewrite lookup_app_l in Hi by lia. exact (Hord i older newer Hi HSi).
  - apply suffix_nil.
Qed.

(** Ending the option on top keeps the order of those below. *)
Lemma start_ordered_pop (rewards : list (list Q)) (top : list Q) :
  start_ordered (rewards ++ [top]) -> start_ordered rewards.
Proof.
  intros Hord i older newer Hi HSi.
  apply (Hord i older newer); apply lookup_app_l_Some; assumption.
Qed.

(** Recording one reward on every trajectory keeps the order. *)
Lemma start_ordered_record (rewards : list (list Q)) (reward : Q) :
  start_ordered rewards ->
  start_ordered ((fun rs => rs ++ [reward]) <$> rewards).
Proof.
  intros Hord i older newer Hi HSi.
  rewrite list_lookup_fmap in Hi, HSi.
  destruct (rewards !! i) as [older' |] eqn:Ei; [| discriminate Hi].
  destruct (rewards !! S i) as [newer' |] eqn:ESi; [| discriminate HSi].
  simpl in Hi, HSi. injection Hi as <-. injection HSi as <-.
  apply suffix_snoc. exact (Hord i older' newer' Ei ESi).
Qed.

Lemma trajectories_aligned_push (states : list (list State))
    (rewards : list (list Q)) (state : State) :
  trajectories_aligned states rewards ->
  trajectories_aligned (states ++ [[state]]) (rewards ++ [[]]).
Proof.
  intros Hal. apply Forall2_app; [exact Hal |].
  constructor; [reflexivity | constructor].
Qed.

Lemma trajectories_aligned_pop (states : list (list State))
    (rewards : list (list Q)) (top_states : list State) (top_rewards : list Q) :
  trajectories_aligned (states ++ [top_states]) (rewards ++ [top_rewards]) ->
  trajectories_aligned states rewards.
Proof.
  intros Hal. unfold trajectories_aligned in *.
  apply Forall2_app_inv_l in Hal as (k1 & k2 & H1 & H2 & E).
  inversion H2 as [| ? y ? k2' _ Hnil]; subst. inversion Hnil; subst.
  apply app_inj_tail in E as [-> _]. exact H1.
Qed.

Lemma trajectories_aligned_record (states : list (list State))
    (rewards : list (list Q)) (next_state : State) (reward : Q) :
  trajectories_aligned states rewards ->
  trajectories_aligned ((fun ss => ss ++ [next_state]) <$> states)
                       ((fun rs => rs ++ [reward]) <$> rewards).
Proof.
  intros Hal. apply Forall2_fmap_2.
  eapply Forall2_impl; [exact Hal |].
  intros ss rs Hlen. simpl. rewrite !length_app, Hlen. reflexivity.
Qed.

(** A Python list is empty or has a last item. *)
Lemma list_snoc_case {A : Type} (l : list A) :
  l = [] \/ exists (l' : list A) (x : A), l = l' ++ [x].
Proof.
  destruct l as [| x l] using rev_ind; [left; reflexivity |].
  right. exists l, x. reflexivity.
Qed.

Lemma pop_back_snoc {A : Type} (l : list A) (x : A) : pop_back (l ++ [x]) = Ok l.
Proof.
  unfold pop_back. rewrite removelast_last.
  destruct l; reflexivity.
Qed.

End StackLists.

(** ** Relations kept by the episode driver *)

Section DriverSteps.

Context {State Action : Type}.
Context `{HashState : Hashable State} `{HashAction : Hashable Action}.

Variable env : BaseEnvironment State Action.
Variable self : HyperParameters.
Variable rng : RandomSource.

Abbreviation Agent := (Agent env).
Abbreviation Option := (Option State Action).

(** A relation between agent states that the bookkeeping outside the three
    stacks cannot break, and that recording a step and popping keep. *)
Variable R : Agent -> Agent -> Prop.
Hypothesis R_refl : forall w, R w w.
Hypothesis R_trans : forall a b c, R a b -> R b c -> R a c.
Hypothesis R_random : forall w, R w (advance_random env w).
Hypothesis R_environment : forall e c w, R w (set_environment env e c w).
Hypothesis R_table : forall t w, R w (set_table env t w).
Hypothesis R_record : forall s r, steps R (record_step env s r).
Hypothesis R_pop : steps R (pop_top env).

Ltac steps_through :=
  repeat
    lazymatch goal with
    | |- steps _ (ret _) => apply (steps_ret R R_refl)
    | |- steps _ (raise _) => apply (steps_raise R R_refl)
    | |- steps _ out_of_fuel => apply (steps_out_of_fuel R R_refl)
    | |- steps _ get => apply (steps_get R R_refl)
    | |- steps _ (lift_outcome _) => apply (steps_lift_outcome R R_refl)
    | |- steps _ (bind _ _) => apply (steps_bind R R_trans); [| intros ?]
    end.

Lemma random_random_steps : steps R (random_random env rng).
Proof.
  unfold random_random. steps_through.
  apply steps_modify. apply R_random.
Qed.

Lemma random_choice_steps {A : Type} (seq : iterable A) :
  steps R (random_choice env rng seq).
Proof.
  destruct seq as [[| x items] | items]; simpl; steps_through.
  apply steps_modify. apply R_random.
Qed.

Lemma env_step_steps (action : Action) : steps R (env_step env action).
Proof.
  unfold env_step. steps_through.
  destruct (step env action (environment env a)) as [result e].
  steps_through. apply steps_modify. apply R_environment.
Qed.

Lemma env_reset_steps : steps R (env_reset env).
Proof.
  unfold env_reset. steps_through.
  destruct (reset env (environment env a)) as [state e].
  steps_through. apply steps_modify. apply R_environment.
Qed.

Lemma select_action_steps (state : State) :
  steps R (select_action env self rng state).
Proof.
  unfold select_action. steps_through.
  destruct (length (executing_options env a) =? 0)%nat.
  - steps_through; [apply random_random_steps |].
    destruct (Qlt_bool a0 (epsilon self)); steps_through;
      apply random_choice_steps.
  - steps_through.
Qed.

Lemma roll_termination_steps (o : Option) (state : State) :
  steps R (_roll_termination env rng o state).
Proof.
  unfold _roll_termination. steps_through; [apply random_random_steps |].
  destruct (Qlt_bool (termination o state) a); steps_through.
Qed.

Lemma learn_top_steps
    (learn : list State -> list Q -> Option -> M ValueTable unit) :
  steps R (learn_top env learn).
Proof.
  unfold learn_top. steps_through.
  intros w. unfold zoom.
  destruct (learn a0 a1 a2 (table env w)) as [o t']. apply R_table.
Qed.

Lemma learn_and_pop_steps : steps R (learn_and_pop env self).
Proof.
  unfold learn_and_pop. steps_through;
    [apply learn_top_steps | apply learn_top_steps | apply R_pop].
Qed.

Lemma terminate_options_steps (fuel : nat) (next_state : State) :
  steps R (terminate_options env self rng fuel next_state).
Proof.
  induction fuel as [| fuel IH]; simpl; steps_through;
    try apply roll_termination_steps.
  - destruct a1; steps_through.
  - destruct a1; steps_through; [apply learn_and_pop_steps | exact IH].
Qed.

Lemma unwind_options_steps (fuel : nat) : steps R (unwind_options env self fuel).
Proof.
  induction fuel as [| fuel IH]; simpl; steps_through.
  - destruct (0 <? length (executing_options env a))%nat; steps_through.
  - destruct (0 <? length (executing_options env a))%nat; steps_through;
      [apply learn_and_pop_steps | exact IH].
Qed.

Lemma primitive_step_steps (episode : nat) (action : Action)
    (episode_rewards : list (list Q)) :
  steps R (primitive_step env self rng episode action episode_rewards).
Proof.
  unfold primitive_step. steps_through; [apply env_step_steps |].
  destruct a as [[next_state reward] terminal].
  steps_through;
    [apply R_record | apply terminate_options_steps |].
  destruct terminal; steps_through. apply unwind_options_steps.
Qed.

(** With [push_option] keeping the relation too, the whole driver does. *)
Hypothesis R_push : forall o s, steps R (push_option env o s).

Lemma loop_body_steps (episode : nat) (state : State)
    (episode_rewards : list (list Q)) :
  steps R (loop_body env self rng episode state episode_rewards).
Proof.
  unfold loop_body. steps_through; [apply select_action_steps |].
  destruct a as [o | action].
  - steps_through. apply R_push.
  - apply primitive_step_steps.
Qed.




End DriverSteps.

(** ** The stack invariant *)

Section StackInvariantProofs.

Context {State Action : Type}.
Context `{HashState : Hashable State} `{HashAction : Hashable Action}.

Variable env : BaseEnvironment State Action.
Variable self : HyperParameters.
Variable rng : RandomSource.

Abbreviation Agent := (Agent env).
Abbreviation Option := (Option State Action).

Lemma with_stacks_same (w : Agent) :
  with_stacks env (executing_options env w) (executing_options_states env w)
              (executing_options_rewards env w) w = w.
Proof. destruct w. reflexivity. Qed.

Lemma keeps_inv_refl (w : Agent) : keeps_inv env w w.
Proof. intros H. exact H. Qed.

Lemma keeps_inv_trans (a b c : Agent) :
  keeps_inv env a b -> keeps_inv env b c -> keeps_inv env a c.
Proof. intros Hab Hbc H. apply Hbc, Hab, H. Qed.

Lemma stack_inv_init (e : env_internal env) : stack_inv env (init env e).
Proof.
  repeat split; try constructor. apply start_ordered_nil.
Qed.

(** *** Push *)

Lemma push_option_eq (o : Option) (state : State) (w : Agent) :
  push_option env o state w
  = (Ok tt,
     with_stacks env (executing_options env w ++ [o])
                 (executing_options_states env w ++ [[state]])
                 (executing_options_rewards env w ++ [[]]) w).
Proof. reflexivity. Qed.

Lemma push_option_inv (o : Option) (state : State) :
  steps (keeps_inv env) (push_option env o state).
Proof.
  intros w (Hs & Hr & Hal & Hord). rewrite push_option_eq.
  unfold stack_inv; simpl. rewrite !length_app, Hs, Hr.
  repeat split.
  - apply trajectories_aligned_push. exact Hal.
  - apply start_ordered_push. exact Hord.
Qed.

(** *** Recording a step *)

Lemma insert_middle {A : Type} (l1 l2 : list A) (x y : A) (n : nat) :
  n = length l1 -> <[n := y]> (l1 ++ x :: l2) = l1 ++ y :: l2.
Proof.
  intros ->. rewrite insert_app_r_alt by lia.
  rewrite Nat.sub_diag. reflexivity.
Qed.

Lemma record_at_eq (next_state : State) (reward : Q) (i : nat)
    (options : list Option) (states : list (list State)) (rewards : list (list Q))
    (ss : list State) (rs : list Q) (w : Agent) :
  states !! i = Some ss ->
  rewards !! i = Some rs ->
  record_at env next_state reward i (with_stacks env options states rewards w)
  = (Ok tt,
     with_stacks env options (<[i := ss ++ [next_state]]> states)
                 (<[i := rs ++ [reward]]> rewards) w).
Proof.
  intros Hss Hrs. unfold record_at, index_at. run_monad. simpl.
  rewrite Hss. simpl. rewrite Hrs. reflexivity.
Qed.

(** The loop of [record_step] from index [length done_s] on: the entries
    before it are left alone, those from it on get their [append]. *)
Lemma record_loop (next_state : State) (reward : Q) (options : list Option) :
  forall (todo_s done_s : list (list State)) (todo_r done_r : list (list Q))
         (w : Agent),
    length done_s = length done_r ->
    length todo_s = length todo_r ->
    for_each (seq (length done_s) (length todo_s))
      (record_at env next_state reward)
      (with_stacks env options (done_s ++ todo_s) (done_r ++ todo_r) w)
    = (Ok tt,
       with_stacks env options
         (done_s ++ ((fun ss => ss ++ [next_state]) <$> todo_s))
         (done_r ++ ((fun rs => rs ++ [reward]) <$> todo_r)) w).
Proof.
  induction todo_s as [| ss todo_s IH];
    intros done_s [| rs todo_r] done_r w Hdone Htodo; try discriminate Htodo.
  - reflexivity.
  - injection Htodo as Htodo.
    cbn [length seq for_each].
    rewrite (bind_Ok _ _ _ _ _
               (record_at_eq next_state reward (length done_s) options
                  (done_s ++ ss :: todo_s) (done_r ++ rs :: todo_r) ss rs w
                  (list_lookup_middle _ _ _ _ eq_refl)
                  (list_lookup_middle _ _ _ _ Hdone))).
    rewrite (insert_middle done_s todo_s ss _ _ eq_refl).
    rewrite (insert_middle done_r todo_r rs _ _ Hdone).
    rewrite (cons_middle _ done_s todo_s), (cons_middle _ done_r todo_r).
    replace (S (length done_s)) with (length (done_s ++ [ss ++ [next_state]]))
      by (rewrite length_app; simpl; lia).
    rewrite !app_assoc.
    rewrite (IH (done_s ++ [ss ++ [next_state]]) todo_r
                (done_r ++ [rs ++ [reward]]) w)
      by (rewrite ?length_app; simpl; lia).
    rewrite !fmap_cons, <- !app_assoc. reflexivity.
Qed.

Lemma record_step_eq (next_state : State) (reward : Q) (w : Agent) :
  stack_inv env w ->
  record_step env next_state reward w
  = (Ok tt,
     with_stacks env (executing_options env w)
       ((fun ss => ss ++ [next_state]) <$> executing_options_states env w)
       ((fun rs => rs ++ [reward]) <$> executing_options_rewards env w) w).
Proof.
  intros (Hs & Hr & _ & _). unfold record_step.
  rewrite (bind_Ok get _ w w w) by reflexivity.
  rewrite <- (with_stacks_same w) at 2.
  rewrite <- Hs.
  apply (record_loop next_state reward (executing_options env w)
           (executing_options_states env w) []
           (executing_options_rewards env w) [] w); [reflexivity | lia].
Qed.

Lemma record_step_inv (next_state : State) (reward : Q) :
  steps (keeps_inv env) (record_step env next_state reward).
Proof.
  intros w Hinv. rewrite (record_step_eq _ _ _ Hinv).
  destruct Hinv as (Hs & Hr & Hal & Hord).
  unfold stack_inv; simpl. rewrite !length_fmap.
  repeat split; try assumption.
  - apply trajectories_aligned_record. exact Hal.
  - apply start_ordered_record. exact Hord.
Qed.

(** *** Pop *)

Lemma pop_top_empty (w : Agent) :
  stack_inv env w ->
  executing_options env w = [] ->
  pop_top env w = (Raise IndexError, w).
Proof.
  intros (Hs & _) Hempty. rewrite Hempty in Hs.
  apply length_zero_iff_nil in Hs.
  unfold pop_top. rewrite (bind_Ok get _ w w w) by reflexivity.
  rewrite Hs. reflexivity.
Qed.

Lemma pop_top_snoc (w : Agent) (below : list Option) (top : Option) :
  stack_inv env w ->
  executing_options env w = below ++ [top] ->
  pop_top env w
  = (Ok tt,
     with_stacks env below
       (removelast (executing_options_states env w))
       (removelast (executing_options_rewards env w)) w)
  /\ stack_inv env
       (with_stacks env below
          (removelast (executing_options_states env w))
          (removelast (executing_options_rewards env w)) w).
Proof.
  intros (Hs & Hr & Hal & Hord) Hstack.
  rewrite Hstack, length_app in Hs, Hr. cbn [length] in Hs, Hr.
  destruct (list_snoc_case (executing_options_states env w))
    as [E | (ss & top_s & Ess)]; [rewrite E in Hs; simpl in Hs; lia |].
  destruct (list_snoc_case (executing_options_rewards env w))
    as [E | (rs & top_r & Ers)]; [rewrite E in Hr; simpl in Hr; lia |].
  rewrite Ess, Ers in *. rewrite length_app in Hs, Hr. cbn [length] in Hs, Hr.
  rewrite !removelast_last. split.
  - unfold pop_top. rewrite (bind_Ok get _ w w w) by reflexivity.
    rewrite Ess, pop_back_snoc. unfold lift_outcome at 1.
    unfold bind at 1. unfold bind at 1. cbn [modify]. unfold bind at 1.
    cbn [get executing_options_rewards set_executing_options_states].
    rewrite Ers, pop_back_snoc. unfold lift_outcome at 1.
    unfold bind at 1. unfold bind at 1. cbn [modify]. unfold bind at 1.
    cbn [get executing_options set_executing_options_states
         set_executing_options_rewards].
    rewrite Hstack, pop_back_snoc. unfold lift_outcome, bind, modify.
    destruct w; reflexivity.
  - unfold stack_inv; simpl. repeat split; try lia.
    + eapply trajectories_aligned_pop. exact Hal.
    + eapply start_ordered_pop. exact Hord.
Qed.

Lemma pop_top_inv : steps (keeps_inv env) (pop_top env).
Proof.
  intros w Hinv.
  destruct (list_snoc_case (executing_options env w))
    as [E | (below & top & E)].
  - rewrite (pop_top_empty w Hinv E). exact Hinv.
  - destruct (pop_top_snoc w below top Hinv E) as [-> Hinv']. exact Hinv'.
Qed.

(** *** The driver *)

Lemma keeps_inv_random (w : Agent) : keeps_inv env w (advance_random env w).
Proof. intros H. exact H. Qed.

Lemma keeps_inv_environment (e : env_internal env) (c : @env_call Action) (w : Agent) :
  keeps_inv env w (set_environment env e c w).
Proof. intros H. exact H. Qed.

Lemma keeps_inv_table (t : ValueTable) (w : Agent) :
  keeps_inv env w (set_table env t w).
Proof. intros H. exact H. Qed.

Ltac keeps_inv_side :=
  first [ exact keeps_inv_refl | exact keeps_inv_trans | exact keeps_inv_random
        | exact keeps_inv_environment | exact keeps_inv_table
        | exact record_step_inv | exact pop_top_inv | exact push_option_inv ].


Lemma loop_body_inv (episode : nat) (state : State)
    (episode_rewards : list (list Q)) :
  steps (keeps_inv env) (loop_body env self rng episode state episode_rewards).
Proof.
  apply loop_body_steps; keeps_inv_side.
Qed.


End StackInvariantProofs.



(** C10. With [num_episodes = 0], [run_agent] returns the empty list and the
    state is the one it started from: the table, the three stacks, the
    environment and the record of the calls made on it ([reset], [step]). *)
Theorem C10_run_agent_zero_episodes {State Action : Type}
    `{HashState : Hashable State} `{HashAction : Hashable Action}
    (env : BaseEnvironment State Action) (self : HyperParameters)
    (rng : RandomSource) (fuel : nat) (w : Agent env) :
  run_agent env self rng fuel 0 w = (Ok [], w).
Proof. reflexivity. Qed.

(** ** The termination cascade *)

Section Cascade.

Context {State Action : Type}.
Context `{HashState : Hashable State} `{HashAction : Hashable Action}.

Variable env : BaseEnvironment State Action.
Variable self : HyperParameters.
Variable rng : RandomSource.

Abbreviation Agent := (Agent env).
Abbreviation Option := (Option State Action).

Lemma terminate_options_unfold (fuel : nat) (next_state : State) :
  terminate_options env self rng fuel next_state
  = (let! w := get in
     let! top := lift_outcome (index_last (executing_options env w)) in
     let! terminates := _roll_termination env rng top next_state in
     if terminates then
       match fuel with
       | O => out_of_fuel
       | S fuel' =>
           let! _ := learn_and_pop env self in
           terminate_options env self rng fuel' next_state
       end
     else ret tt).
Proof. destruct fuel; reflexivity. Qed.

(** The loop test reads [self.executing_options[-1]]: on an empty stack it
    raises [IndexError], before any draw. *)
Lemma terminate_options_empty (fuel : nat) (next_state : State) (w : Agent) :
  executing_options env w = [] ->
  terminate_options env self rng fuel next_state w = (Raise IndexError, w).
Proof.
  intros Hempty. rewrite terminate_options_unfold.
  rewrite (bind_Ok get _ w w w) by reflexivity.
  rewrite Hempty. reflexivity.
Qed.

(** When the draw of the option on top fails, the cascade stops normally
    and pops nothing. *)
Lemma terminate_options_continues (fuel : nat) (next_state : State) (w : Agent)
    (below : list Option) (top : Option) :
  executing_options env w = below ++ [top] ->
  Qlt_bool (termination top next_state) (uniform rng (random_position env w)) = true ->
  terminate_options env self rng fuel next_state w
  = (Ok tt, advance_random env w).
Proof.
  intros Hstack Hdraw. rewrite terminate_options_unfold.
  rewrite (bind_Ok get _ w w w) by reflexivity.
  rewrite Hstack. unfold index_last. rewrite last_snoc.
  unfold lift_outcome at 1. unfold bind at 1.
  unfold _roll_termination.
  unfold bind at 1. unfold bind at 1. rewrite random_random_eq.
  rewrite Hdraw. reflexivity.
Qed.

(** The cascade never returns normally with an empty stack. *)
Lemma terminate_options_never_empties (fuel : nat) (next_state : State) :
  forall w w' : Agent,
    terminate_options env self rng fuel next_state w = (Ok tt, w') ->
    executing_options env w' <> [].
Proof.
  induction fuel as [| fuel IH]; intros w w' Hrun;
    rewrite terminate_options_unfold in Hrun;
    apply bind_Ok_inv in Hrun as (w0 & w1 & Hget & Hrun);
    injection Hget as <- <-;
    apply bind_Ok_inv in Hrun as (top & w1 & Htop & Hrun);
    unfold lift_outcome in Htop; injection Htop as Htop <-;
    apply bind_Ok_inv in Hrun as (terminates & w2 & Hroll & Hrun);
    assert (Hsame : executing_options env w2 = executing_options env w)
      by (unfold _roll_termination in Hroll;
          apply bind_Ok_inv in Hroll as (u & w3 & Hu & Hroll);
          rewrite random_random_eq in Hu; injection Hu as <- <-;
          destruct (Qlt_bool _ _); injection Hroll as <- <-; reflexivity);
    assert (Hnonempty : executing_options env w <> [])
      by (intros E; rewrite E in Htop; discriminate Htop);
    destruct terminates.
  - discriminate Hrun.
  - injection Hrun as <-. rewrite Hsame. exact Hnonempty.
  - apply bind_Ok_inv in Hrun as ([] & w3 & _ & Hrun). exact (IH w3 w' Hrun).
  - injection Hrun as <-. rewrite Hsame. exact Hnonempty.
Qed.

End Cascade.

(** C2. One option on the stack, which terminates with probability 1: after
    the primitive step to the non-terminal state 1 its draw succeeds, both
    learners run and it is popped; the loop test is then evaluated on the
    empty stack and raises [IndexError].  The driver does not return to an
    empty stack without error: from a fresh agent, [run_agent] stops with
    [IndexError] after its first primitive step. *)
Theorem C2_cascade_raises_when_stack_empties :
  let env := corridor 5 [opt_a] in
  let self := params 1 in
  let rng := constant_source (1 # 2) in
  let w := with_stacks env [opt_a] [[0; 1]%nat] [[1]] (init env 0%nat) in
  let after_cascade := terminate_options env self rng 1 1%nat w in
  let after_run := run_agent env self rng 5 1 (init env 0%nat) in
  is_state_terminal env 1%nat = false
  /\ fst after_cascade = Raise IndexError
  /\ executing_options env (snd after_cascade) = []
  /\ List.map fst (q_writes (table env (snd after_cascade))) = [(0, 10)%Z]
  /\ fst after_run = Raise IndexError
  /\ executing_options env (snd after_run) = []
  /\ env_calls env (snd after_run) = [CallReset; CallStep 0%nat].
Proof.
  cbv zeta. split; [reflexivity |].
  split; [vm_compute; reflexivity |].
  split; [vm_compute; reflexivity |].
  split; [vm_compute; reflexivity |].
  split; [vm_compute; reflexivity |].
  split; vm_compute; reflexivity.
Qed.

(** ** What deepens the stack *)

Section StackDepth.

Context {State Action : Type}.
Context `{HashState : Hashable State} `{HashAction : Hashable Action}.

Variable env : BaseEnvironment State Action.
Variable self : HyperParameters.
Variable rng : RandomSource.

Abbreviation Agent := (Agent env).
Abbreviation Option := (Option State Action).

Lemma no_deeper_refl (w : Agent) : no_deeper env w w.
Proof. unfold no_deeper. lia. Qed.

Lemma no_deeper_trans (a b c : Agent) :
  no_deeper env a b -> no_deeper env b c -> no_deeper env a c.
Proof. unfold no_deeper. lia. Qed.

Lemma no_deeper_same (w w' : Agent) :
  executing_options env w' = executing_options env w -> no_deeper env w w'.
Proof. unfold no_deeper. intros ->. lia. Qed.

Lemma length_removelast_le {A : Type} (l : list A) :
  (length (removelast l) <= length l)%nat.
Proof.
  destruct (list_snoc_case l) as [-> | (l' & x & ->)].
  - simpl. lia.
  - rewrite removelast_last, length_app. lia.
Qed.

Lemma record_at_no_deeper (next_state : State) (reward : Q) (i : nat) :
  steps (no_deeper env) (record_at env next_state reward i).
Proof.
  intros w. unfold record_at, index_at. run_monad.
  destruct (executing_options_states env w !! i) as [ss |];
    [| apply no_deeper_refl].
  simpl. destruct (executing_options_rewards env w !! i) as [rs |];
    apply no_deeper_same; reflexivity.
Qed.

Lemma record_step_no_deeper (next_state : State) (reward : Q) :
  steps (no_deeper env) (record_step env next_state reward).
Proof.
  unfold record_step.
  apply (steps_bind _ no_deeper_trans); [exact no_deeper_refl |].
  intros w. apply (steps_for_each _ no_deeper_refl no_deeper_trans).
  intros i. apply record_at_no_deeper.
Qed.

Lemma pop_top_no_deeper : steps (no_deeper env) (pop_top env).
Proof.
  intros w. unfold pop_top, pop_back. run_monad.
  destruct (executing_options_states env w) as [| ss states];
    [apply no_deeper_refl |].
  simpl. destruct (executing_options_rewards env w) as [| rs rewards];
    [apply no_deeper_same; reflexivity |].
  simpl. destruct (executing_options env w) as [| o options] eqn:E;
    [apply no_deeper_same; simpl; congruence |].
  unfold no_deeper. simpl. rewrite E. apply (length_removelast_le (o :: options)).
Qed.

Lemma primitive_step_no_deeper (episode : nat) (action : Action)
    (episode_rewards : list (list Q)) :
  steps (no_deeper env) (primitive_step env self rng episode action episode_rewards).
Proof.
  apply primitive_step_steps.
  - exact no_deeper_refl.
  - exact no_deeper_trans.
  - intros w. apply no_deeper_same. reflexivity.
  - intros e c w. apply no_deeper_same. reflexivity.
  - intros t w. apply no_deeper_same. reflexivity.
  - exact record_step_no_deeper.
  - exact pop_top_no_deeper.
Qed.

Lemma same_options_refl (w : Agent) : same_options env w w.
Proof. reflexivity. Qed.

Lemma same_options_trans (a b c : Agent) :
  same_options env a b -> same_options env b c -> same_options env a c.
Proof. unfold same_options. congruence. Qed.

(** Selecting changes no stack: at most the random source has advanced. *)
Lemma select_action_same_options (state : State) :
  steps (same_options env) (select_action env self rng state).
Proof.
  apply select_action_steps.
  - exact same_options_refl.
  - exact same_options_trans.
  - intros w. reflexivity.
Qed.

(** A decision made with an empty stack, when there is one, is an option. *)
Lemma select_action_top_level (state : State) (w w1 : Agent)
    (d : decision State Action) :
  executing_options env w = [] ->
  select_action env self rng state w = (Ok d, w1) ->
  exists o : Option, d = Delegate o.
Proof.
  intros Hempty Hsel.
  destruct (Qlt_bool (uniform rng (random_position env w)) (epsilon self)) eqn:Hdraw.
  - rewrite (select_action_explores env self rng state w Hempty Hdraw) in Hsel.
    apply bind_Ok_inv in Hsel as (o & w2 & _ & Hret).
    injection Hret as <- _. exists o. reflexivity.
  - rewrite (select_action_greedy_raises env self rng state w Hempty Hdraw) in Hsel.
    discriminate Hsel.
Qed.

End StackDepth.

(** C6 (amended). In a pass of the loop body, an option is pushed exactly
    when the decision of [select_action] is an option, whether the stack was
    empty (top-level selection) or not (the decision of the policy of the
    option on top): the stack of options then grows by this one option; a
    primitive decision never deepens the stack; and a decision made with an
    empty stack is always an option. *)
Theorem C6_push_follows_decision {State Action : Type}
    `{HashState : Hashable State} `{HashAction : Hashable Action}
    (env : BaseEnvironment State Action) (self : HyperParameters)
    (rng : RandomSource) (episode : nat) (state : State)
    (episode_rewards : list (list Q)) (w w1 : Agent env)
    (d : decision State Action) :
  select_action env self rng state w = (Ok d, w1) ->
  let after := loop_body env self rng episode state episode_rewards w in
  match d with
  | Delegate o =>
      fst after = Ok (state, false, episode_rewards)
      /\ executing_options env (snd after) = executing_options env w ++ [o]
  | Primitive a =>
      no_deeper env w (snd after)
  end
  /\ (executing_options env w = [] -> isinstance_Option d = true).
Proof.
  intros Hsel after.
  assert (Hsame : executing_options env w1 = executing_options env w).
  { pose proof (select_action_same_options env self rng state w) as H.
    rewrite Hsel in H. exact H. }
  assert (Hafter : after
                   = match d with
                     | Delegate o =>
                         bind (push_option env o state)
                              (fun _ => ret (state, false, episode_rewards)) w1
                     | Primitive a =>
                         primitive_step env self rng episode a episode_rewards w1
                     end).
  { subst after. unfold loop_body. rewrite (bind_Ok _ _ _ _ _ Hsel).
    destruct d; reflexivity. }
  split.
  - destruct d as [o | a]; rewrite Hafter.
    + split; [reflexivity |]. simpl. rewrite Hsame. reflexivity.
    + eapply no_deeper_trans.
      * apply no_deeper_same. exact Hsame.
      * apply primitive_step_no_deeper.
  - intros Hempty.
    destruct (select_action_top_level env self rng state w w1 d Hempty Hsel)
      as [o ->].
    reflexivity.
Qed.

Lemma C6_push_follows_decision_witness :
  let env := corridor 5 [opt_outer] in
  let self := params 1 in
  let rng := constant_source (1 # 2) in
  let w := with_stacks env [opt_outer] [[0%nat]] [[]] (init env 0%nat) in
  let after := loop_body env self rng 0 0%nat [[]] w in
  select_action env self rng 0%nat w = (Ok (Delegate opt_a), w)
  /\ (fst after = Ok (0%nat, false, [[]])
      /\ executing_options env (snd after) = executing_options env w ++ [opt_a])
  /\ (executing_options env w = [] -> isinstance_Option (Delegate opt_a) = true).
Proof.
  split; [reflexivity |].
  apply (C6_push_follows_decision (corridor 5 [opt_outer]) (params 1)
           (constant_source (1 # 2)) 0 0%nat [[]]
           (with_stacks (corridor 5 [opt_outer]) [opt_outer] [[0%nat]] [[]]
              (init (corridor 5 [opt_outer]) 0%nat))
           (with_stacks (corridor 5 [opt_outer]) [opt_outer] [[0%nat]] [[]]
              (init (corridor 5 [opt_outer]) 0%nat))
           (Delegate opt_a)).
  reflexivity.
Defined.

(** C6, as stated, fails: a fresh agent selects [opt_outer] at top level and
    pushes it; at the next pass the stack is not empty, the decision is the
    one of [opt_outer]'s policy, the option [opt_a], and it is pushed: the
    stack deepens from 1 to 2 while an option is executing. *)
Lemma C6_delegated_decision_pushes :
  let env := corridor 5 [opt_outer] in
  let self := params 1 in
  let rng := constant_source (1 # 2) in
  let w0 := snd (env_reset env (init env 0%nat)) in
  let w1 := snd (loop_body env self rng 0 0%nat [[]] w0) in
  let w2 := snd (loop_body env self rng 0 0%nat [[]] w1) in
  executing_options env w0 = []
  /\ executing_options env w1 = [opt_outer]
  /\ select_action env self rng 0%nat w1 = (Ok (policy opt_outer 0%nat), w1)
  /\ executing_options env w2 = [opt_outer; opt_a]
  /\ ~ no_deeper env w1 w2.
Proof.
  cbv zeta. split; [reflexivity |].
  split; [vm_compute; reflexivity |].
  split; [vm_compute; reflexivity |].
  split; [vm_compute; reflexivity |].
  unfold no_deeper. vm_compute. lia.
Qed.

(** ** The inner loops never want fuel *)

Section Finishes.

Context {S : Type}.

Lemma finishes_ret {A : Type} (a : A) : finishes (ret (S := S) a).
Proof. intros s. discriminate. Qed.

Lemma finishes_raise {A : Type} (e : exn) : finishes (raise (S := S) (A := A) e).
Proof. intros s. discriminate. Qed.

Lemma finishes_get : finishes (get (S := S)).
Proof. intros s. discriminate. Qed.

Lemma finishes_modify (f : S -> S) : finishes (modify f).
Proof. intros s. discriminate. Qed.

Lemma finishes_lift_outcome {A : Type} (o : outcome A) :
  o <> OutOfFuel -> finishes (lift_outcome (S := S) o).
Proof. intros Ho s. exact Ho. Qed.

Lemma finishes_bind {A B : Type} (m : M S A) (k : A -> M S B) :
  finishes m -> (forall a, finishes (k a)) -> finishes (bind m k).
Proof.
  intros Hm Hk s. unfold bind. specialize (Hm s).
  destruct (m s) as [[a | e |] s1]; simpl in *.
  - apply Hk.
  - discriminate.
  - exfalso. apply Hm. reflexivity.
Qed.

Lemma finishes_for_each {A : Type} (xs : list A) (body : A -> M S unit) :
  (forall x, finishes (body x)) -> finishes (for_each xs body).
Proof.
  intros Hbody. induction xs as [| x xs IH]; simpl.
  - apply finishes_ret.
  - apply finishes_bind; [apply Hbody | intros _; exact IH].
Qed.

Lemma finishes_zoom {T A : Type} (proj : T -> S) (inj : S -> T -> T) (m : M S A) :
  finishes m -> finishes (zoom proj inj m).
Proof.
  intros Hm t. unfold zoom. specialize (Hm (proj t)).
  destruct (m (proj t)) as [o s']. exact Hm.
Qed.

End Finishes.

Lemma index_last_finishes {A : Type} (l : list A) : index_last l <> OutOfFuel.
Proof. unfold index_last. destruct (last l); discriminate. Qed.

Lemma pop_front_finishes {A : Type} (l : list A) : pop_front l <> OutOfFuel.
Proof. destruct l; discriminate. Qed.

Lemma pop_back_finishes {A : Type} (l : list A) : pop_back l <> OutOfFuel.
Proof. destruct l; discriminate. Qed.

Lemma py_max_finishes (l : list Q) : py_max l <> OutOfFuel.
Proof. destruct l; discriminate. Qed.

Ltac finishes_through :=
  repeat
    lazymatch goal with
    | |- finishes (ret _) => apply finishes_ret
    | |- finishes (raise _) => apply finishes_raise
    | |- finishes get => apply finishes_get
    | |- finishes (modify _) => apply finishes_modify
    | |- finishes (lift_outcome (index_last _)) =>
        apply finishes_lift_outcome, index_last_finishes
    | |- finishes (lift_outcome (pop_front _)) =>
        apply finishes_lift_outcome, pop_front_finishes
    | |- finishes (lift_outcome (pop_back _)) =>
        apply finishes_lift_outcome, pop_back_finishes
    | |- finishes (lift_outcome (py_max _)) =>
        apply finishes_lift_outcome, py_max_finishes
    | |- finishes (bind _ _) => apply finishes_bind; [| intros ?]
    end.

Section FuelOfTheInnerLoops.

Context {State Action : Type}.
Context `{HashState : Hashable State} `{HashAction : Hashable Action}.

Variable env : BaseEnvironment State Action.
Variable self : HyperParameters.
Variable rng : RandomSource.

Abbreviation Agent := (Agent env).
Abbreviation Option := (Option State Action).

Lemma macro_q_loop_finishes (s_n : State) (o : Option)
    (state_trajectory : list State) :
  forall (q_values : option (list Q)) (rewards : list Q),
    finishes (macro_q_loop env self q_values s_n o state_trajectory rewards).
Proof.
  induction state_trajectory as [| s states IH]; intros q_values rewards.
  - apply finishes_ret.
  - destruct states as [| s' rest]; [apply finishes_ret |].
    rewrite macro_q_loop_unfold. cbv zeta. finishes_through.
    + destruct (negb (is_state_terminal env s_n)); [apply finishes_ret |].
      destruct q_values; [apply finishes_ret | apply finishes_raise].
    + unfold q_set. apply finishes_modify.
    + apply IH.
Qed.

Lemma macro_q_learn_finishes (state_trajectory : list State) (rewards : list Q)
    (o : Option) :
  finishes (macro_q_learn env self state_trajectory rewards o).
Proof.
  unfold macro_q_learn. finishes_through. apply macro_q_loop_finishes.
Qed.

Lemma intra_option_update_finishes (s_n : State) (rewards : list Q) (s_k : State)
    (other : Option) :
  finishes (intra_option_update env self s_n rewards s_k other).
Proof.
  unfold intra_option_update. cbv zeta. finishes_through.
  unfold q_set. apply finishes_modify.
Qed.

Lemma intra_option_loop_finishes (s_n : State) (executed : Option)
    (state_trajectory : list State) :
  forall rewards : list Q,
    finishes (intra_option_loop env self s_n executed state_trajectory rewards).
Proof.
  induction state_trajectory as [| s states IH]; intros rewards.
  - apply finishes_ret.
  - destruct states as [| s' rest]; [apply finishes_ret |].
    change (intra_option_loop env self s_n executed (s :: s' :: rest) rewards)
      with (let! _ := for_each (get_available_options env s)
                        (fun other_option =>
                           if intra_option_condition executed other_option s
                           then intra_option_update env self s_n rewards s other_option
                           else ret tt) in
            let! rewards' := lift_outcome (pop_front rewards) in
            intra_option_loop env self s_n executed (s' :: rest) rewards').
    finishes_through.
    + apply finishes_for_each. intros other.
      destruct (intra_option_condition executed other s);
        [apply intra_option_update_finishes | apply finishes_ret].
    + apply IH.
Qed.

Lemma intra_option_learn_finishes (state_trajectory : list State)
    (rewards : list Q) (o : Option) :
  finishes (intra_option_learn env self state_trajectory rewards o).
Proof.
  unfold intra_option_learn. finishes_through. apply intra_option_loop_finishes.
Qed.

Lemma learn_top_finishes
    (learn : list State -> list Q -> Option -> M ValueTable unit) :
  (forall ss rs o, finishes (learn ss rs o)) ->
  finishes (learn_top env learn).
Proof.
  intros Hlearn. unfold learn_top. finishes_through.
  apply finishes_zoom, Hlearn.
Qed.

Lemma pop_top_finishes : finishes (pop_top env).
Proof. unfold pop_top. finishes_through. Qed.

Lemma learn_and_pop_finishes : finishes (learn_and_pop env self).
Proof.
  unfold learn_and_pop. finishes_through.
  - apply learn_top_finishes, macro_q_learn_finishes.
  - apply learn_top_finishes, intra_option_learn_finishes.
  - apply pop_top_finishes.
Qed.

(** A pop that succeeds removes exactly one option. *)
Lemma pop_top_shrinks (w w' : Agent) :
  pop_top env w = (Ok tt, w') ->
  S (length (executing_options env w')) = length (executing_options env w).
Proof.
  unfold pop_top, pop_back. run_monad.
  destruct (executing_options_states env w) as [| ss states]; [discriminate |].
  simpl. destruct (executing_options_rewards env w) as [| rs rewards];
    [discriminate |].
  simpl. destruct (executing_options env w) as [| o options] eqn:E;
    [discriminate |].
  intros H. injection H as <-.
  assert (Hlen : forall l : list Option,
             l <> [] -> S (length (removelast l)) = length l).
  { intros l Hl. destruct (list_snoc_case l) as [-> | (l' & x & ->)];
      [contradiction |].
    rewrite removelast_last, length_app. simpl. lia. }
  exact (Hlen (o :: options) ltac:(discriminate)).
Qed.

Lemma learn_and_pop_shrinks (w w' : Agent) :
  learn_and_pop env self w = (Ok tt, w') ->
  S (length (executing_options env w')) = length (executing_options env w).
Proof.
  unfold learn_and_pop. intros Hrun.
  apply bind_Ok_inv in Hrun as ([] & w1 & Hmacro & Hrun).
  apply bind_Ok_inv in Hrun as ([] & w2 & Hintra & Hpop).
  assert (Hsame : forall learn u u' (r : outcome unit),
             learn_top env learn u = (r, u') ->
             executing_options env u' = executing_options env u).
  { intros learn u u' r Hl.
    pose proof (learn_top_steps env (same_options env)
                  (same_options_refl env) (same_options_trans env)
                  (fun t w => eq_refl) learn u) as H.
    rewrite Hl in H. exact H. }
  rewrite <- (Hsame _ _ _ _ Hmacro), <- (Hsame _ _ _ _ Hintra).
  apply pop_top_shrinks. exact Hpop.
Qed.

(** With as much fuel as the stack is deep, the cascade stops by itself. *)
Lemma terminate_options_fuel (next_state : State) :
  forall (fuel : nat) (w : Agent),
    (length (executing_options env w) <= fuel)%nat ->
    fst (terminate_options env self rng fuel next_state w) <> OutOfFuel.
Proof.
  induction fuel as [| fuel IH]; intros w Hfuel;
    rewrite terminate_options_unfold;
    rewrite (bind_Ok get _ w w w) by reflexivity.
  - destruct (executing_options env w) as [| o os]; [| simpl in Hfuel; lia].
    discriminate.
  - destruct (index_last (executing_options env w)) as [top | e |] eqn:Htop;
      [| discriminate | exfalso; exact (index_last_finishes _ Htop)].
    unfold lift_outcome at 1. unfold bind at 1.
    unfold _roll_termination. unfold bind at 1. unfold bind at 1.
    rewrite random_random_eq.
    destruct (Qlt_bool _ _); [discriminate |].
    cbn [ret]. unfold bind at 1.
    pose proof (learn_and_pop_finishes (advance_random env w)) as Hfin.
    destruct (learn_and_pop env self (advance_random env w))
      as [[[] | e |] w1] eqn:Hpop; [| discriminate | contradiction].
    apply IH. apply learn_and_pop_shrinks in Hpop. simpl in Hpop. lia.
Qed.

(** And so does the unwinding of the stack at the end of an episode. *)
Lemma unwind_options_fuel :
  forall (fuel : nat) (w : Agent),
    (length (executing_options env w) <= fuel)%nat ->
    fst (unwind_options env self fuel w) <> OutOfFuel.
Proof.
  induction fuel as [| fuel IH]; intros w Hfuel.
  - simpl. rewrite (bind_Ok get _ w w w) by reflexivity.
    destruct (executing_options env w) as [| o os]; [| simpl in Hfuel; lia].
    discriminate.
  - simpl. rewrite (bind_Ok get _ w w w) by reflexivity.
    destruct (0 <? length (executing_options env w))%nat; [| discriminate].
    unfold bind at 1.
    pose proof (learn_and_pop_finishes w) as Hfin.
    destruct (learn_and_pop env self w) as [[[] | e |] w1] eqn:Hpop;
      [| discriminate | contradiction].
    apply IH. apply learn_and_pop_shrinks in Hpop. lia.
Qed.

(** No update is made when the action of the executed option never hashes
    like the option itself. *)
Lemma intra_option_learn_no_update (state_trajectory : list State)
    (rewards : list Q) (executed : Option) (t : ValueTable) :
  (forall s : State, hash (policy executed s) <> hash executed) ->
  snd (intra_option_learn env self state_trajectory rewards executed t) = t.
Proof.
  intros Hne. unfold intra_option_learn.
  assert (Hloop : forall s_n states rs,
             steps (fun a b : ValueTable => b = a)
                   (intra_option_loop env self s_n executed states rs)).
  { intros s_n states. induction states as [| s states IH]; intros rs.
    - intros u. reflexivity.
    - destruct states as [| s' rest]; [intros u; reflexivity |].
      change (intra_option_loop env self s_n executed (s :: s' :: rest) rs)
        with (let! _ := for_each (get_available_options env s)
                          (fun other_option =>
                             if intra_option_condition executed other_option s
                             then intra_option_update env self s_n rs s other_option
                             else ret tt) in
              let! rewards' := lift_outcome (pop_front rs) in
              intra_option_loop env self s_n executed (s' :: rest) rewards').
      apply steps_bind; [congruence | |].
      + apply steps_for_each; [reflexivity | congruence |].
        intros other. rewrite (intra_option_condition_false _ _ _ (Hne s)).
        intros u. reflexivity.
      + intros _. apply steps_bind; [congruence | intros u; reflexivity |].
        intros rs'. apply IH. }
  destruct (index_last state_trajectory) as [s_n | e |] eqn:Hlast;
    unfold lift_outcome, bind; try reflexivity.
  apply Hloop.
Qed.

End FuelOfTheInnerLoops.

(** * Further properties *)

(** ** Reading the table after an assignment *)

Lemma q_get_assign_eq (t : ValueTable) (key : Z * Z) (value : Q) :
  q_get (assign t key value) key = value.
Proof. unfold q_get, assign. simpl. rewrite lookup_insert_eq. reflexivity. Qed.

Lemma q_get_assign_ne (t : ValueTable) (key key' : Z * Z) (value : Q) :
  key <> key' -> q_get (assign t key value) key' = q_get t key'.
Proof.
  intros Hne. unfold q_get, assign. simpl.
  rewrite lookup_insert_ne by exact Hne. reflexivity.
Qed.

Lemma q_set_eq (key : Z * Z) (value : Q) (t : ValueTable) :
  q_set key value t = (Ok tt, assign t key value).
Proof. reflexivity. Qed.

(** X2. The table created by [__init__] reads 0 at every key; after
    [q_table[key] = value], [get(key, 0)] is [value] at this key and what it
    was at every other key; and a second assignment to the key replaces the
    first. *)
Theorem value_table_assign_then_get (t : ValueTable) (key key' : Z * Z)
    (value value' : Q) :
  q_get empty_table key = 0
  /\ q_get (snd (q_set key value t)) key'
     = (if decide (key = key') then value else q_get t key')
  /\ q_table (snd (q_set key value' (snd (q_set key value t))))
     = q_table (snd (q_set key value' t)).
Proof.
  split; [reflexivity |]. split.
  - rewrite q_set_eq. cbn [snd]. destruct (decide (key = key')) as [<- | Hne].
    + apply q_get_assign_eq.
    + apply q_get_assign_ne. exact Hne.
  - simpl. apply insert_insert_eq.
Qed.

(** ** The Macro-Q learner: lengths that do not match, errors *)

Section MacroQMore.

Context {State Action : Type}.
Context `{HashState : Hashable State} `{HashAction : Hashable Action}.

Variable env : BaseEnvironment State Action.
Variable self : HyperParameters.

Abbreviation Option := (Option State Action).

(** The loop from suffix start [k] on, with any number of rewards left: it
    ends normally when the rewards last, and otherwise raises at the
    [rewards.pop(0)] that follows the backup made with no reward left. *)
Lemma macro_q_loop_any_rewards (state_trajectory : list State)
    (all_rewards : list Q) (o : Option) (s_n : State) :
  last state_trajectory = Some s_n ->
  is_state_terminal env s_n = false ->
  get_available_options env s_n <> [] ->
  forall (states : list State) (rewards : list Q) (k : nat)
         (q_values : option (list Q)) (t : ValueTable),
    drop k state_trajectory = states ->
    drop k all_rewards = rewards ->
    macro_q_loop env self q_values s_n o states rewards t
    = if (length (tail states) <=? length rewards)%nat
      then (Ok tt,
            fold_left (macro_q_backup env self state_trajectory all_rewards o)
                      (seq k (length (tail states))) t)
      else (Raise IndexError,
            fold_left (macro_q_backup env self state_trajectory all_rewards o)
                      (seq k (S (length rewards))) t).
Proof.
  intros Hlast Hterm Hoffer.
  induction states as [| s states IH]; intros rewards k q_values t Hs Hr.
  - reflexivity.
  - destruct states as [| s' rest]; [reflexivity |].
    destruct (drop_cons_inv _ _ _ _ Hs) as [Hk Hs'].
    assert (Hnk : (length all_rewards - k)%nat = length rewards).
    { rewrite <- Hr. rewrite length_drop. reflexivity. }
    assert (Hstep : macro_q_backup env self state_trajectory all_rewards o t k
                    = assign t (hash s, hash o)
                        (q_get t (hash s, hash o) + macro_q_alpha self *
                           (_discounted_return rewards (gamma self)
                            + math_pow (gamma self) (length rewards)
                              * max_of (q_values_at env t s_n)
                            - q_get t (hash s, hash o)))).
    { unfold macro_q_backup. rewrite Hk, Hlast, Hr, Hnk. reflexivity. }
    rewrite macro_q_loop_unfold. run_monad. rewrite Hterm. cbn [negb].
    rewrite (q_values_at_nonempty env t s_n Hoffer).
    unfold q_set. run_monad. unfold assign in Hstep. rewrite <- Hstep.
    destruct rewards as [| r rewards'].
    + reflexivity.
    + destruct (drop_cons_inv _ _ _ _ Hr) as [_ Hr'].
      cbn [pop_front].
      rewrite (IH rewards' (S k) _ _ Hs' Hr').
      cbn [tail length Nat.leb].
      destruct (length rest <=? length rewards')%nat; reflexivity.
Qed.

(** X3. With a non-terminal last state that offers an option, and [n + 1]
    states: given at least [n] rewards, [macro_q_learn] returns normally after
    the backups [k = 0 .. n-1] (surplus rewards enter every return and
    exponent); given [m < n] rewards it makes the backups [k = 0 .. m] and then
    raises [IndexError] at [rewards.pop(0)], the table keeping these [m + 1]
    assignments. *)
Theorem macro_q_learn_any_rewards (state_trajectory : list State)
    (rewards : list Q) (o : Option) (s_n : State) (t : ValueTable) :
  last state_trajectory = Some s_n ->
  is_state_terminal env s_n = false ->
  get_available_options env s_n <> [] ->
  let n := (length state_trajectory - 1)%nat in
  let backups := fun j : nat =>
    fold_left (macro_q_backup env self state_trajectory rewards o) (seq 0 j) t in
  ((n <= length rewards)%nat ->
     macro_q_learn env self state_trajectory rewards o t = (Ok tt, backups n))
  /\ ((length rewards < n)%nat ->
        macro_q_learn env self state_trajectory rewards o t
        = (Raise IndexError, backups (S (length rewards)))
        /\ length (q_writes (backups (S (length rewards))))
           = (length (q_writes t) + S (length rewards))%nat).
Proof.
  intros Hlast Hterm Hoffer n backups.
  assert (Hrun : macro_q_learn env self state_trajectory rewards o t
                 = if (n <=? length rewards)%nat
                   then (Ok tt, backups n)
                   else (Raise IndexError, backups (S (length rewards)))).
  { unfold macro_q_learn, index_last. rewrite Hlast. run_monad.
    rewrite (macro_q_loop_any_rewards state_trajectory rewards o s_n
               Hlast Hterm Hoffer state_trajectory rewards 0%nat None t
               eq_refl eq_refl).
    replace (length (tail state_trajectory)) with n; [reflexivity |].
    subst n. destruct state_trajectory; simpl; lia. }
  split.
  - intros Hle. rewrite Hrun.
    destruct (Nat.leb_spec n (length rewards)); [reflexivity | lia].
  - intros Hlt. split.
    + rewrite Hrun.
      destruct (Nat.leb_spec n (length rewards)); [lia | reflexivity].
    + assert (Hkeys := macro_q_backups_keys env self state_trajectory rewards o
                         s_n Hlast (S (length rewards)) 0%nat t).
      apply (f_equal length) in Hkeys; [| subst n; simpl; lia].
      rewrite length_app, !length_map, length_take, drop_0 in Hkeys.
      subst backups. cbv beta. subst n. lia.
Qed.

(** X4. The other ways [macro_q_learn] stops without a backup: an empty
    trajectory raises [IndexError] (at [state_trajectory[-1]]); two or more
    states whose non-terminal last state offers no option raise [ValueError]
    (at [max(q_values)]).  The table is as it was. *)
Theorem macro_q_learn_no_backup (state_trajectory : list State)
    (rewards : list Q) (o : Option) (s_n : State) (t : ValueTable) :
  (1 < length state_trajectory)%nat ->
  last state_trajectory = Some s_n ->
  is_state_terminal env s_n = false ->
  get_available_options env s_n = [] ->
  macro_q_learn env self state_trajectory rewards o t = (Raise ValueError, t)
  /\ macro_q_learn env self [] rewards o t = (Raise IndexError, t).
Proof.
  intros Hlen Hlast Hterm Hnone. split; [| reflexivity].
  unfold macro_q_learn, index_last. rewrite Hlast. run_monad.
  destruct state_trajectory as [| s [| s' rest]]; simpl in Hlen; try lia.
  rewrite macro_q_loop_unfold. run_monad. rewrite Hterm. cbn [negb].
  unfold q_values_at. rewrite Hnone. reflexivity.
Qed.

End MacroQMore.

(** ** What the backups leave alone *)

Ltac steps_with Hrefl Htrans :=
  repeat
    lazymatch goal with
    | |- steps _ (ret _) => apply (steps_ret _ Hrefl)
    | |- steps _ (raise _) => apply (steps_raise _ Hrefl)
    | |- steps _ get => apply (steps_get _ Hrefl)
    | |- steps _ (lift_outcome _) => apply (steps_lift_outcome _ Hrefl)
    | |- steps _ (bind _ _) => apply (steps_bind _ Htrans); [| intros ?]
    end.

Lemma same_outside_refl (keys : list (Z * Z)) (t : ValueTable) :
  same_outside keys t t.
Proof. intros key _. reflexivity. Qed.

Lemma same_outside_trans (keys : list (Z * Z)) (a b c : ValueTable) :
  same_outside keys a b -> same_outside keys b c -> same_outside keys a c.
Proof. intros Hab Hbc key Hkey. rewrite (Hbc key Hkey). apply Hab, Hkey. Qed.

Lemma q_set_same_outside (keys : list (Z * Z)) (key : Z * Z) (value : Q) :
  key ∈ keys -> steps (same_outside keys) (q_set key value).
Proof.
  intros Hin t key' Hout. rewrite q_set_eq. simpl.
  apply q_get_assign_ne. intros ->. contradiction.
Qed.

Lemma same_off_state_refl (h : Z) (t : ValueTable) : same_off_state h t t.
Proof. intros key _. reflexivity. Qed.

Lemma same_off_state_trans (h : Z) (a b c : ValueTable) :
  same_off_state h a b -> same_off_state h b c -> same_off_state h a c.
Proof. intros Hab Hbc key Hkey. rewrite (Hbc key Hkey). apply Hab, Hkey. Qed.

Section Frames.

Context {State Action : Type}.
Context `{HashState : Hashable State} `{HashAction : Hashable Action}.

Variable env : BaseEnvironment State Action.
Variable self : HyperParameters.

Abbreviation Option := (Option State Action).

Lemma macro_q_loop_same_outside (keys : list (Z * Z)) (s_n : State) (o : Option)
    (state_trajectory : list State) :
  forall (q_values : option (list Q)) (rewards : list Q),
    (forall s : State, s ∈ removelast state_trajectory ->
                       (hash s, hash o) ∈ keys) ->
    steps (same_outside keys)
          (macro_q_loop env self q_values s_n o state_trajectory rewards).
Proof.
  pose proof (same_outside_refl keys) as Hrefl.
  pose proof (same_outside_trans keys) as Htrans.
  induction state_trajectory as [| s states IH]; intros q_values rewards Hkeys.
  - apply steps_ret, Hrefl.
  - destruct states as [| s' rest]; [apply steps_ret, Hrefl |].
    rewrite macro_q_loop_unfold. cbv zeta. steps_with Hrefl Htrans.
    + destruct (negb (is_state_terminal env s_n)); [apply steps_ret, Hrefl |].
      destruct q_values; [apply steps_ret, Hrefl | apply steps_raise, Hrefl].
    + apply q_set_same_outside. apply Hkeys.
      change (removelast (s :: s' :: rest)) with (s :: removelast (s' :: rest)).
      apply list_elem_of_here.
    + apply IH. intros s0 Hs0. apply Hkeys.
      change (removelast (s :: s' :: rest)) with (s :: removelast (s' :: rest)).
      apply list_elem_of_further. exact Hs0.
Qed.

(** X5. Whatever its outcome, [macro_q_learn] changes no entry other than
    those of the pairs [(s_k, option)] for the states [s_0 .. s_(n-1)] of the
    trajectory: every other key reads as before. *)
Theorem macro_q_learn_frame (state_trajectory : list State) (rewards : list Q)
    (o : Option) (t : ValueTable) :
  same_outside
    (List.map (fun s : State => (hash s, hash o)) (removelast state_trajectory))
    t (snd (macro_q_learn env self state_trajectory rewards o t)).
Proof.
  unfold macro_q_learn.
  destruct (index_last state_trajectory) as [s_n | e |];
    unfold lift_outcome, bind; try apply same_outside_refl.
  apply macro_q_loop_same_outside. intros s Hs.
  apply list_elem_of_In.
  apply (in_map (fun s0 : State => (hash s0, hash o))).
  apply list_elem_of_In. exact Hs.
Qed.

Lemma intra_option_loop_same_off_state (s_n : State) (executed : Option)
    (state_trajectory : list State) :
  forall rewards : list Q,
    steps (same_off_state (hash s_n))
          (intra_option_loop env self s_n executed state_trajectory rewards).
Proof.
  pose proof (same_off_state_refl (hash s_n)) as Hrefl.
  pose proof (same_off_state_trans (hash s_n)) as Htrans.
  induction state_trajectory as [| s states IH]; intros rewards.
  - apply steps_ret, Hrefl.
  - destruct states as [| s' rest]; [apply steps_ret, Hrefl |].
    change (intra_option_loop env self s_n executed (s :: s' :: rest) rewards)
      with (let! _ := for_each (get_available_options env s)
                        (fun other_option =>
                           if intra_option_condition executed other_option s
                           then intra_option_update env self s_n rewards s other_option
                           else ret tt) in
            let! rewards' := lift_outcome (pop_front rewards) in
            intra_option_loop env self s_n executed (s' :: rest) rewards').
    steps_with Hrefl Htrans; [| apply IH].
    apply (steps_for_each _ Hrefl Htrans). intros other.
    destruct (intra_option_condition executed other s);
      [| apply steps_ret, Hrefl].
    unfold intra_option_update. cbv zeta. steps_with Hrefl Htrans.
    intros u key Hkey. rewrite q_set_eq. simpl.
    apply q_get_assign_ne. intros <-. apply Hkey. reflexivity.
Qed.

(** X6. Whatever its outcome, [intra_option_learn] changes no entry of a
    state that hashes differently from the trajectory's last state: the
    values at the states the option passed through stay as they were. *)
Theorem intra_option_learn_frame (state_trajectory : list State)
    (rewards : list Q) (executed : Option) (s_n : State) (t : ValueTable) :
  last state_trajectory = Some s_n ->
  same_off_state (hash s_n) t
    (snd (intra_option_learn env self state_trajectory rewards executed t)).
Proof.
  intros Hlast. unfold intra_option_learn, index_last. rewrite Hlast.
  unfold lift_outcome, bind. apply intra_option_loop_same_off_state.
Qed.

End Frames.

(** ** A step into a terminal state never completes *)

Section TerminalNeverCompletes.

Context {State Action : Type}.
Context `{HashState : Hashable State} `{HashAction : Hashable Action}.

Variable env : BaseEnvironment State Action.
Variable self : HyperParameters.
Variable rng : RandomSource.

Abbreviation Agent := (Agent env).
Abbreviation Option := (Option State Action).

Lemma last_is_Some {A : Type} (l : list A) :
  l <> [] -> exists x : A, last l = Some x.
Proof.
  intros Hne. destruct (list_snoc_case l) as [-> | (l' & x & ->)];
    [contradiction |].
  exists x. apply last_snoc.
Qed.

(** The Macro-Q learner called on such a top of stack raises, and nothing
    has changed. *)
Lemma learn_top_macro_raises (w : Agent) :
  stack_inv env w ->
  top_ends_terminal env w ->
  learn_top env (macro_q_learn env self) w = (Raise UnboundLocalError, w).
Proof.
  destruct w as [tb options states rewards e calls position].
  intros (Hs & Hr & _ & _) (ss & s & Hlast & Hlen & Hs_n & Hterm).
  simpl in *.
  assert (Hstates : states <> []) by (intros ->; discriminate Hlast).
  destruct (last_is_Some rewards) as [rs Hrs].
  { intros ->. destruct states; [contradiction | simpl in *; lia]. }
  destruct (last_is_Some options) as [o Ho].
  { intros ->. destruct states; [contradiction | simpl in *; lia]. }
  unfold learn_top, index_last. run_monad. simpl.
  rewrite Hlast, Hrs, Ho.
  rewrite (macro_q_learn_terminal env self ss rs o s tb Hlen Hs_n Hterm).
  reflexivity.
Qed.

Lemma learn_and_pop_raises (w : Agent) :
  stack_inv env w ->
  top_ends_terminal env w ->
  learn_and_pop env self w = (Raise UnboundLocalError, w).
Proof.
  intros Hinv Htop. unfold learn_and_pop.
  apply bind_Raise. apply learn_top_macro_raises; assumption.
Qed.

(** The cascade then pops nothing: it returns normally only when the top
    option's draw fails, a draw being all that has happened. *)
Lemma terminate_options_at_terminal (fuel : nat) (next_state : State)
    (w w' : Agent) :
  stack_inv env w ->
  top_ends_terminal env w ->
  terminate_options env self rng fuel next_state w = (Ok tt, w') ->
  w' = advance_random env w.
Proof.
  intros Hinv Htop Hrun. rewrite terminate_options_unfold in Hrun.
  apply bind_Ok_inv in Hrun as (w0 & w1 & Hget & Hrun).
  injection Hget as <- <-.
  apply bind_Ok_inv in Hrun as (top & w1 & Htopo & Hrun).
  unfold lift_outcome in Htopo. injection Htopo as _ <-.
  apply bind_Ok_inv in Hrun as (terminates & w2 & Hroll & Hrun).
  unfold _roll_termination in Hroll.
  apply bind_Ok_inv in Hroll as (u & w3 & Hu & Hroll).
  rewrite random_random_eq in Hu. injection Hu as <- <-.
  destruct (Qlt_bool _ _); injection Hroll as <- <-.
  - injection Hrun as <-. reflexivity.
  - destruct fuel as [| fuel]; [discriminate Hrun |].
    rewrite (bind_Raise _ _ _ _ _
               (learn_and_pop_raises (advance_random env w) Hinv Htop)) in Hrun.
    discriminate Hrun.
Qed.

(** And the unwinding of the stack does not return normally. *)
Lemma unwind_options_at_terminal (fuel : nat) (w : Agent) :
  stack_inv env w ->
  top_ends_terminal env w ->
  fst (unwind_options env self fuel w) <> Ok tt.
Proof.
  intros Hinv Htop.
  assert (Hdepth : (0 <? length (executing_options env w))%nat = true).
  { destruct Hinv as (Hs & _). destruct Htop as (ss & _ & Hlast & _).
    apply Nat.ltb_lt. rewrite <- Hs.
    destruct (executing_options_states env w); [discriminate Hlast |].
    simpl. lia. }
  destruct fuel as [| fuel]; simpl;
    rewrite (bind_Ok get _ w w w) by reflexivity; rewrite Hdepth.
  - discriminate.
  - rewrite (bind_Raise _ _ _ _ _ (learn_and_pop_raises w Hinv Htop)).
    discriminate.
Qed.

(** After a step into a terminal state has been recorded, the top of a
    non-empty stack ends in that state. *)
Lemma recorded_top_ends_terminal (next_state : State) (reward : Q) (w : Agent) :
  stack_inv env w ->
  executing_options env w <> [] ->
  is_state_terminal env next_state = true ->
  top_ends_terminal env
    (with_stacks env (executing_options env w)
       ((fun ss => ss ++ [next_state]) <$> executing_options_states env w)
       ((fun rs => rs ++ [reward]) <$> executing_options_rewards env w) w).
Proof.
  intros (Hs & Hr & Hal & _) Hne Hterm.
  destruct (list_snoc_case (executing_options_states env w))
    as [E | (below & ss & E)].
  - rewrite E in Hs. destruct (executing_options env w);
      [contradiction | discriminate Hs].
  - exists (ss ++ [next_state]), next_state. simpl. rewrite E.
    rewrite fmap_app. cbn [fmap list_fmap]. rewrite last_snoc.
    split; [reflexivity |]. split.
    + rewrite E in Hal. unfold trajectories_aligned in Hal.
      apply Forall2_app_inv_l in Hal as (k1 & k2 & _ & H2 & _).
      inversion H2 as [| ? rs ? ? Hlen _]; subst.
      rewrite length_app, Hlen. simpl. lia.
    + split; [apply last_snoc | exact Hterm].
Qed.

Lemma primitive_step_never_terminal (episode : nat) (action : Action)
    (episode_rewards : list (list Q)) (w w' : Agent)
    (state : State) (terminal : bool) (result : list (list Q)) :
  env_terminal_consistent env ->
  stack_inv env w ->
  primitive_step env self rng episode action episode_rewards w
  = (Ok (state, terminal, result), w') ->
  terminal = false.
Proof.
  intros Henv Hinv Hrun. unfold primitive_step in Hrun.
  apply bind_Ok_inv in Hrun as ([[next_state reward] term] & w1 & Hstep & Hrun).
  assert (Hw1 : stack_inv env w1 /\
                (term = true -> is_state_terminal env next_state = true)).
  { unfold env_step in Hstep.
    apply bind_Ok_inv in Hstep as (w0 & w0' & Hget & Hstep).
    injection Hget as <- <-.
    specialize (Henv action (environment env w)).
    destruct (step env action (environment env w)) as [res e].
    apply bind_Ok_inv in Hstep as ([] & w2 & Hmod & Hret).
    injection Hmod as <-. injection Hret as -> <-.
    split; [exact Hinv | exact Henv]. }
  destruct Hw1 as [Hinv1 Hterm].
  apply bind_Ok_inv in Hrun as (rewards' & w2 & Happ & Hrun).
  unfold lift_outcome in Happ. injection Happ as _ <-.
  apply bind_Ok_inv in Hrun as ([] & w2 & Hrec & Hrun).
  rewrite (record_step_eq env next_state reward w1 Hinv1) in Hrec.
  injection Hrec as <-.
  apply bind_Ok_inv in Hrun as (w3 & w3' & Hget & Hrun).
  injection Hget as <- <-.
  apply bind_Ok_inv in Hrun as ([] & w4 & Hcascade & Hrun).
  destruct term; [exfalso | ].
  - specialize (Hterm eq_refl).
    set (w2 := with_stacks env (executing_options env w1)
                 ((fun ss => ss ++ [next_state]) <$> executing_options_states env w1)
                 ((fun rs => rs ++ [reward]) <$> executing_options_rewards env w1)
                 w1) in *.
    assert (Hinv2 : stack_inv env w2).
    { pose proof (record_step_inv env next_state reward w1 Hinv1) as H.
      rewrite (record_step_eq env next_state reward w1 Hinv1) in H. exact H. }
    assert (Hcase : executing_options env w1 = []
                    \/ executing_options env w1 <> []).
    { destruct (executing_options env w1); [left | right]; congruence. }
    destruct Hcase as [Hempty | Hstack].
    + rewrite terminate_options_empty in Hcascade by exact Hempty.
      discriminate Hcascade.
    + assert (Htop : top_ends_terminal env w2).
      { apply (recorded_top_ends_terminal next_state reward w1);
          assumption. }
      apply (terminate_options_at_terminal _ _ _ _ Hinv2 Htop) in Hcascade.
      subst w4.
      apply bind_Ok_inv in Hrun as ([] & w5 & Hunwind & _).
      apply bind_Ok_inv in Hunwind as (w6 & w6' & Hget & Hunwind).
      injection Hget as <- <-.
      apply (unwind_options_at_terminal
               (length (executing_options env (advance_random env w2)))
               (advance_random env w2) Hinv2 Htop).
      rewrite Hunwind. reflexivity.
  - apply bind_Ok_inv in Hrun as ([] & w5 & _ & Hret).
    injection Hret as _ <- _ _. reflexivity.
Qed.

Lemma loop_body_never_terminal (episode : nat) (state : State)
    (episode_rewards : list (list Q)) (w w' : Agent)
    (state' : State) (terminal : bool) (result : list (list Q)) :
  env_terminal_consistent env ->
  stack_inv env w ->
  loop_body env self rng episode state episode_rewards w
  = (Ok (state', terminal, result), w') ->
  terminal = false.
Proof.
  intros Henv Hinv Hrun. unfold loop_body in Hrun.
  apply bind_Ok_inv in Hrun as (d & w1 & Hsel & Hrun).
  assert (Hinv1 : stack_inv env w1).
  { pose proof (select_action_steps env self rng (keeps_inv env)
                  (keeps_inv_refl env) (keeps_inv_trans env)
                  (keeps_inv_random env) state w) as H.
    rewrite Hsel in H. apply H, Hinv. }
  destruct d as [o | action].
  - apply bind_Ok_inv in Hrun as ([] & w2 & _ & Hret).
    injection Hret as _ <- _ _. reflexivity.
  - exact (primitive_step_never_terminal _ _ _ _ _ _ _ _ Henv Hinv1 Hrun).
Qed.

Lemma episode_loop_never_returns (episode : nat) :
  env_terminal_consistent env ->
  forall (fuel : nat) (state : State) (episode_rewards : list (list Q))
         (w : Agent) (result : list (list Q)),
    stack_inv env w ->
    fst (episode_loop env self rng fuel episode state false episode_rewards w)
    <> Ok result.
Proof.
  intros Henv. induction fuel as [| fuel IH];
    intros state episode_rewards w result Hinv; simpl; [discriminate |].
  unfold bind.
  destruct (loop_body env self rng episode state episode_rewards w)
    as [[[[state' terminal] rewards'] | e |] w1] eqn:Hbody;
    try discriminate.
  rewrite (loop_body_never_terminal _ _ _ _ _ _ _ _ Henv Hinv Hbody).
  apply IH.
  pose proof (loop_body_inv env self rng episode state episode_rewards w Hinv)
    as H.
  rewrite Hbody in H. exact H.
Qed.

(** X10. In an environment whose [terminal] flag agrees with
    [is_state_terminal], [run_agent] never returns for [num_episodes >= 1]:
    the step that ends an episode leads to [macro_q_learn] on a trajectory
    ending in a terminal state (or to the cascade on an empty stack), which
    raises; so every run raises or goes on for ever. *)
Theorem run_agent_never_returns (fuel : nat) (num_episodes : Z) (w : Agent)
    (result : list (list Q)) :
  env_terminal_consistent env ->
  stack_inv env w ->
  (0 < num_episodes)%Z ->
  fst (run_agent env self rng fuel num_episodes w) <> Ok result.
Proof.
  intros Henv Hinv Hpos. unfold run_agent.
  destruct (Z.to_nat num_episodes) as [| n] eqn:Hn; [lia |].
  cbn [seq episodes]. unfold bind at 1.
  pose proof (env_reset_steps env (keeps_inv env) (keeps_inv_refl env)
                (keeps_inv_trans env) (keeps_inv_environment env) w) as Hreset.
  destruct (env_reset env w) as [[state | e |] w1] eqn:Hres; try discriminate.
  specialize (Hreset Hinv). simpl in Hreset.
  unfold bind at 1.
  pose proof (episode_loop_never_returns 0%nat Henv fuel state
                (replicate (S n) []) w1) as Hloop.
  destruct (episode_loop env self rng fuel 0 state false (replicate (S n) []) w1)
    as [[rewards' | e |] w2]; try discriminate.
  exfalso. exact (Hloop rewards' Hreset eq_refl).
Qed.

End TerminalNeverCompletes.

(** ** The shape of the stack through the inner loops *)

Section StackShapeProofs.

Context {State Action : Type}.
Context `{HashState : Hashable State} `{HashAction : Hashable Action}.

Variable env : BaseEnvironment State Action.
Variable self : HyperParameters.
Variable rng : RandomSource.

Abbreviation Agent := (Agent env).
Abbreviation Option := (Option State Action).

(** X11. Starting an option and ending it at once leaves the agent as it
    was: the three [pop]s undo the three [append]s. *)
Theorem pop_after_push (o : Option) (state : State) (w : Agent) :
  pop_top env (snd (push_option env o state w)) = (Ok tt, w).
Proof.
  destruct w as [tb options states rewards e calls position].
  rewrite push_option_eq. unfold pop_top, with_stacks. run_monad. simpl.
  rewrite !pop_back_snoc. reflexivity.
Qed.

(** X12. On a well-formed stack a primitive step is seen at every level:
    [record_step] returns normally, every state trajectory has [next_state]
    appended and every reward trajectory [reward], and nothing else
    changes. *)
Theorem record_step_appends_everywhere (next_state : State) (reward : Q)
    (w : Agent) :
  stack_inv env w ->
  let after := record_step env next_state reward w in
  fst after = Ok tt
  /\ executing_options_states env (snd after)
     = (fun ss => ss ++ [next_state]) <$> executing_options_states env w
  /\ executing_options_rewards env (snd after)
     = (fun rs => rs ++ [reward]) <$> executing_options_rewards env w
  /\ executing_options env (snd after) = executing_options env w
  /\ table env (snd after) = table env w
  /\ env_calls env (snd after) = env_calls env w.
Proof.
  intros Hinv after. subst after.
  rewrite (record_step_eq env next_state reward w Hinv).
  repeat split; reflexivity.
Qed.

(** X13. When the unwinding at the end of an episode returns normally, the
    stack of options is empty. *)
Theorem unwind_options_empties (fuel : nat) :
  forall w w' : Agent,
    unwind_options env self fuel w = (Ok tt, w') ->
    executing_options env w' = [].
Proof.
  induction fuel as [| fuel IH]; intros w w' Hrun; simpl in Hrun;
    rewrite (bind_Ok get _ w w w) in Hrun by reflexivity;
    destruct (0 <? length (executing_options env w))%nat eqn:Hdepth.
  - discriminate Hrun.
  - injection Hrun as <-. apply Nat.ltb_ge in Hdepth.
    destruct (executing_options env w); [reflexivity | simpl in Hdepth; lia].
  - apply bind_Ok_inv in Hrun as ([] & w1 & _ & Hrun). exact (IH w1 w' Hrun).
  - injection Hrun as <-. apply Nat.ltb_ge in Hdepth.
    destruct (executing_options env w); [reflexivity | simpl in Hdepth; lia].
Qed.

Lemma options_prefix_refl (w : Agent) : options_prefix env w w.
Proof. unfold options_prefix. reflexivity. Qed.

Lemma options_prefix_trans (a b c : Agent) :
  options_prefix env a b -> options_prefix env b c -> options_prefix env a c.
Proof. unfold options_prefix. intros Hab Hbc. etransitivity; eassumption. Qed.

Lemma options_prefix_same (w w' : Agent) :
  executing_options env w' = executing_options env w -> options_prefix env w w'.
Proof. unfold options_prefix. intros ->. reflexivity. Qed.

Lemma removelast_prefix {A : Type} (l : list A) : removelast l `prefix_of` l.
Proof.
  destruct (list_snoc_case l) as [-> | (l' & x & ->)]; [reflexivity |].
  rewrite removelast_last. apply prefix_app_r. reflexivity.
Qed.

Lemma record_step_options_prefix (next_state : State) (reward : Q) :
  steps (options_prefix env) (record_step env next_state reward).
Proof.
  unfold record_step.
  apply (steps_bind _ options_prefix_trans);
    [apply steps_get, options_prefix_refl |].
  intros w0.
  apply (steps_for_each _ options_prefix_refl options_prefix_trans).
  intros i w. unfold record_at, index_at. run_monad.
  destruct (executing_options_states env w !! i) as [ss |];
    [| apply options_prefix_refl].
  simpl. destruct (executing_options_rewards env w !! i) as [rs |];
    apply options_prefix_same; reflexivity.
Qed.

Lemma pop_top_options_prefix : steps (options_prefix env) (pop_top env).
Proof.
  intros w. destruct w as [tb options states rewards e calls position].
  unfold pop_top, pop_back, options_prefix. run_monad. simpl.
  destruct states as [| ss states]; [reflexivity |].
  destruct rewards as [| rs rewards]; [reflexivity |].
  destruct options as [| o options]; [reflexivity |].
  apply (removelast_prefix (o :: options)).
Qed.

(** X14. Whatever their outcome, the termination cascade, the unwinding and
    a whole primitive step only remove options from the top: the stack of
    options afterwards is an initial segment of the stack before, never
    reordered, replaced or extended. *)
Theorem inner_loops_only_pop (fuel episode : nat) (next_state : State)
    (action : Action) (episode_rewards : list (list Q)) (w : Agent) :
  options_prefix env w (snd (terminate_options env self rng fuel next_state w))
  /\ options_prefix env w (snd (unwind_options env self fuel w))
  /\ options_prefix env w
       (snd (primitive_step env self rng episode action episode_rewards w)).
Proof.
  split; [| split].
  - apply terminate_options_steps;
      [exact options_prefix_refl | exact options_prefix_trans
      | intros u; apply options_prefix_same; reflexivity
      | intros t u; apply options_prefix_same; reflexivity
      | exact pop_top_options_prefix].
  - apply unwind_options_steps;
      [exact options_prefix_refl | exact options_prefix_trans
      | intros t u; apply options_prefix_same; reflexivity
      | exact pop_top_options_prefix].
  - apply primitive_step_steps;
      [exact options_prefix_refl | exact options_prefix_trans
      | intros u; apply options_prefix_same; reflexivity
      | intros e c u; apply options_prefix_same; reflexivity
      | intros t u; apply options_prefix_same; reflexivity
      | exact record_step_options_prefix
      | exact pop_top_options_prefix].
Qed.

(** X15. The two inner loops always come to an end, after at most one pass
    per active option: given as much fuel as the stack is deep, neither the
    cascade nor the unwinding stops for want of fuel. *)
Theorem inner_loops_terminate (fuel : nat) (next_state : State) (w : Agent) :
  (length (executing_options env w) <= fuel)%nat ->
  fst (terminate_options env self rng fuel next_state w) <> OutOfFuel
  /\ fst (unwind_options env self fuel w) <> OutOfFuel.
Proof.
  intros Hfuel. split.
  - apply terminate_options_fuel. exact Hfuel.
  - apply unwind_options_fuel. exact Hfuel.
Qed.

Lemma only_random_advanced_refl (w : Agent) : only_random_advanced env w w.
Proof. unfold only_random_advanced. repeat split; lia. Qed.

Lemma only_random_advanced_trans (a b c : Agent) :
  only_random_advanced env a b -> only_random_advanced env b c ->
  only_random_advanced env a c.
Proof.
  unfold only_random_advanced.
  intros (H1 & H2 & H3 & H4 & H5 & H6 & H7) (G1 & G2 & G3 & G4 & G5 & G6 & G7).
  repeat split; try congruence. lia.
Qed.

(** X16. Selection has no side effect but on the random source: whatever
    [select_action] returns or raises, the table, the three stacks and the
    environment are as before, and no call has been made on the environment. *)
Theorem select_action_only_draws (state : State) (w : Agent) :
  only_random_advanced env w (snd (select_action env self rng state w)).
Proof.
  apply select_action_steps.
  - exact only_random_advanced_refl.
  - exact only_random_advanced_trans.
  - intros u. unfold only_random_advanced. simpl. repeat split; lia.
Qed.

(** X17. While an option is executing, [select_action] returns the decision
    of the policy of the option on top of the stack, draws nothing and changes
    nothing. *)
Theorem select_action_follows_top (state : State) (w : Agent)
    (below : list Option) (top : Option) :
  executing_options env w = below ++ [top] ->
  select_action env self rng state w = (Ok (policy top state), w).
Proof. apply select_action_delegates. Qed.

(** X18. With no option executing and a draw below [epsilon],
    [select_action] returns one of the options the environment offers at the
    state, after two draws; when the environment offers none it raises
    [IndexError] after the one draw. *)
Theorem select_action_explores_available (state : State) (w : Agent) :
  executing_options env w = [] ->
  Qlt_bool (uniform rng (random_position env w)) (epsilon self) = true ->
  (get_available_options env state = [] ->
     select_action env self rng state w
     = (Raise IndexError, advance_random env w))
  /\ (get_available_options env state <> [] ->
        exists o : Option,
          o ∈ get_available_options env state
          /\ select_action env self rng state w
             = (Ok (Delegate o), advance_random env (advance_random env w))).
Proof.
  intros Hempty Hdraw.
  rewrite (select_action_explores env self rng state w Hempty Hdraw).
  split.
  - intros ->. reflexivity.
  - intros Hoffer.
    destruct (get_available_options env state) as [| o1 os] eqn:E;
      [contradiction |].
    set (i := (raw_index rng (random_position env (advance_random env w))
               mod length (o1 :: os))%nat).
    assert (Hi : (i < length (o1 :: os))%nat).
    { subst i. apply Nat.mod_upper_bound. simpl. lia. }
    destruct (lookup_lt_is_Some_2 (o1 :: os) i Hi) as [o Ho].
    exists o. split; [apply list_elem_of_lookup; exists i; exact Ho |].
    unfold random_choice, bind, get, modify, lift_outcome, index_at, ret.
    fold i. rewrite Ho. reflexivity.
Qed.

(** X19. [_roll_termination] with deterministic termination functions: an
    option whose termination probability at the state is 1 or more always
    terminates (a draw is below 1); one whose probability is below the draw
    does not; and a draw of exactly 0 terminates even an option of probability
    0.  One draw is consumed each time. *)
Theorem roll_termination_cases (o : Option) (state : State) (w : Agent) :
  let u := uniform rng (random_position env w) in
  let rolled := _roll_termination env rng o state w in
  snd rolled = advance_random env w
  /\ (u <= 1 -> 1 <= termination o state -> fst rolled = Ok true)
  /\ (termination o state < u -> fst rolled = Ok false)
  /\ (u == 0 -> termination o state == 0 -> fst rolled = Ok true).
Proof.
  intros u rolled. subst rolled. unfold _roll_termination.
  rewrite (bind_Ok _ _ _ _ _ (random_random_eq env rng w)). fold u.
  assert (Hcases : forall b : bool,
             Qlt_bool (termination o state) u = b ->
             (if b then ret false else ret true) (advance_random env w)
             = (Ok (negb b), advance_random env w)).
  { intros [] _; reflexivity. }
  rewrite (Hcases _ eq_refl). cbn [fst snd].
  split; [reflexivity |]. split; [| split].
  - intros Hu Hone. f_equal. apply negb_true_iff.
    unfold Qlt_bool. apply negb_false_iff. apply Qle_bool_iff.
    eapply Qle_trans; eassumption.
  - intros Hlt. f_equal. apply negb_false_iff.
    unfold Qlt_bool. apply negb_true_iff.
    destruct (Qle_bool u (termination o state)) eqn:E; [| reflexivity].
    apply Qle_bool_iff in E. exfalso. apply (Qlt_not_le _ _ Hlt E).
  - intros Hu Hzero. f_equal. apply negb_true_iff.
    unfold Qlt_bool. apply negb_false_iff. apply Qle_bool_iff.
    rewrite Hu, Hzero. apply Qle_refl.
Qed.

End StackShapeProofs.

(** ** The intra-option learner: which options it updates *)

Section IntraOptionMore.

Context {State Action : Type}.
Context `{HashState : Hashable State} `{HashAction : Hashable Action}.

Variable env : BaseEnvironment State Action.
Variable self : HyperParameters.

Abbreviation Option := (Option State Action).

Lemma intra_for_each_keys (s_n s_k : State) (rewards : list Q)
    (executed : Option) :
  get_available_options env s_n <> [] ->
  hash (policy executed s_k) = hash executed ->
  forall (others : list Option) (t : ValueTable),
    exists t' : ValueTable,
      for_each others
        (fun other_option =>
           if intra_option_condition executed other_option s_k
           then intra_option_update env self s_n rewards s_k other_option
           else ret tt) t
      = (Ok tt, t')
      /\ List.map fst (q_writes t')
         = List.map fst (q_writes t)
           ++ List.map (fun other : Option => (hash s_n, hash other))
                (List.filter (fun other : Option => initiation other s_k) others).
Proof.
  intros Hoffer Hhash.
  induction others as [| other others IH]; intros t.
  - exists t. split; [reflexivity |]. simpl. rewrite app_nil_r. reflexivity.
  - cbn [for_each List.filter].
    assert (Hc : intra_option_condition executed other s_k
                 = initiation other s_k).
    { unfold intra_option_condition.
      rewrite Hhash, Z.eqb_refl. apply andb_true_r. }
    rewrite Hc. destruct (initiation other s_k).
    + rewrite (bind_Ok _ _ _ _ _
                 (intra_option_update_eq env self s_n rewards s_k other t Hoffer)).
      destruct (IH (assign t (hash s_n, hash other)
                      (intra_option_target env self
                         (q_get t (hash s_k, hash other)) t s_n rewards other)))
        as (t' & Hrun & Hkeys).
      exists t'. split; [exact Hrun |].
      rewrite Hkeys. cbn [assign q_writes List.map].
      rewrite map_app, <- app_assoc. reflexivity.
    + rewrite (bind_Ok (ret tt) _ t t tt) by reflexivity. apply IH.
Qed.

Lemma intra_option_loop_keys (s_n : State) (executed : Option) :
  get_available_options env s_n <> [] ->
  forall (state_trajectory : list State) (rewards : list Q) (t : ValueTable),
    length state_trajectory = S (length rewards) ->
    (forall s : State, s ∈ removelast state_trajectory ->
                       hash (policy executed s) = hash executed) ->
    exists t' : ValueTable,
      intra_option_loop env self s_n executed state_trajectory rewards t
      = (Ok tt, t')
      /\ List.map fst (q_writes t')
         = List.map fst (q_writes t)
           ++ intra_option_keys env s_n (removelast state_trajectory).
Proof.
  intros Hoffer.
  induction state_trajectory as [| s states IH]; intros rewards t Hlen Hhash.
  - discriminate Hlen.
  - destruct states as [| s' rest].
    + exists t. split; [reflexivity |]. simpl. rewrite app_nil_r. reflexivity.
    + destruct rewards as [| r rewards']; [discriminate Hlen |].
      change (removelast (s :: s' :: rest)) with (s :: removelast (s' :: rest))
        in *.
      change (intra_option_loop env self s_n executed (s :: s' :: rest)
                (r :: rewards'))
        with (let! _ := for_each (get_available_options env s)
                          (fun other_option =>
                             if intra_option_condition executed other_option s
                             then intra_option_update env self s_n (r :: rewards')
                                    s other_option
                             else ret tt) in
              let! rewards0 := lift_outcome (pop_front (r :: rewards')) in
              intra_option_loop env self s_n executed (s' :: rest) rewards0).
      destruct (intra_for_each_keys s_n s (r :: rewards') executed Hoffer
                  (Hhash s (list_elem_of_here _ _))
                  (get_available_options env s) t)
        as (t1 & Hrun1 & Hkeys1).
      rewrite (bind_Ok _ _ _ _ _ Hrun1).
      cbn [pop_front]. unfold lift_outcome at 1. unfold bind at 1.
      destruct (IH rewards' t1) as (t' & Hrun & Hkeys).
      { simpl in Hlen |- *. lia. }
      { intros s0 Hs0. apply Hhash, list_elem_of_further, Hs0. }
      exists t'. split; [exact Hrun |].
      rewrite Hkeys, Hkeys1. unfold intra_option_keys. cbn [flat_map].
      rewrite <- app_assoc. reflexivity.
Qed.

(** X20. When, at every state the trajectory starts a suffix from, the
    action of the executed option hashes like the option itself, and the last
    state offers an option, [intra_option_learn] returns normally and assigns,
    for [k = 0 .. n-1] in turn, the key [(s_n, other)] of every option offered
    at [s_k] whose [initiation] holds there, whatever the policy of
    [other]. *)
Theorem intra_option_learn_updates_all_initiable
    (state_trajectory : list State) (rewards : list Q) (executed : Option)
    (s_n : State) (t : ValueTable) :
  length state_trajectory = S (length rewards) ->
  last state_trajectory = Some s_n ->
  get_available_options env s_n <> [] ->
  (forall s : State, s ∈ removelast state_trajectory ->
                     hash (policy executed s) = hash executed) ->
  let after := intra_option_learn env self state_trajectory rewards executed t in
  fst after = Ok tt
  /\ List.map fst (q_writes (snd after))
     = List.map fst (q_writes t)
       ++ intra_option_keys env s_n (removelast state_trajectory).
Proof.
  intros Hlen Hlast Hoffer Hhash after. subst after.
  destruct (intra_option_loop_keys s_n executed Hoffer state_trajectory
              rewards t Hlen Hhash) as (t' & Hrun & Hkeys).
  assert (Hall : intra_option_learn env self state_trajectory rewards executed t
                 = (Ok tt, t')).
  { unfold intra_option_learn, index_last. rewrite Hlast. exact Hrun. }
  rewrite Hall. split; [reflexivity | exact Hkeys].
Qed.

(** X21. When the action of the executed option never hashes like the
    option itself (as with options and actions of distinct hashes),
    [intra_option_learn] changes nothing in the table, whichever options the
    environment offers. *)
Theorem intra_option_learn_changes_nothing
    (state_trajectory : list State) (rewards : list Q) (executed : Option)
    (t : ValueTable) :
  (forall s : State, hash (policy executed s) <> hash executed) ->
  snd (intra_option_learn env self state_trajectory rewards executed t) = t.
Proof. apply intra_option_learn_no_update. Qed.

End IntraOptionMore.

(** ** The further properties at concrete inputs *)

Lemma macro_q_learn_any_rewards_witness :
  let env := corridor 5 [opt_a] in
  (last [0; 1; 2]%nat = Some 2%nat
   /\ is_state_terminal env 2%nat = false
   /\ get_available_options env 2%nat <> []
   /\ (length [1] < length [0; 1; 2]%nat - 1)%nat)
  /\ macro_q_learn env (params 0) [0; 1; 2]%nat [1] opt_a empty_table
     = (Raise IndexError,
        fold_left (macro_q_backup env (params 0) [0; 1; 2]%nat [1] opt_a)
                  (seq 0 2) empty_table).
Proof.
  split.
  - split; [reflexivity |]. split; [reflexivity |].
    split; [discriminate | simpl; lia].
  - apply (macro_q_learn_any_rewards (corridor 5 [opt_a]) (params 0)
             [0; 1; 2]%nat [1] opt_a 2%nat empty_table);
      [reflexivity | reflexivity | discriminate | simpl; lia].
Defined.

Lemma macro_q_learn_no_backup_witness :
  let env := corridor 5 [] in
  ((1 < length [0; 1]%nat)%nat
   /\ last [0; 1]%nat = Some 1%nat
   /\ is_state_terminal env 1%nat = false
   /\ get_available_options env 1%nat = [])
  /\ macro_q_learn env (params 0) [0; 1]%nat [1] opt_a empty_table
     = (Raise ValueError, empty_table)
  /\ macro_q_learn env (params 0) [] [1] opt_a empty_table
     = (Raise IndexError, empty_table).
Proof.
  split.
  - split; [simpl; lia |]. repeat split; reflexivity.
  - apply (macro_q_learn_no_backup (corridor 5 []) (params 0)
             [0; 1]%nat [1] opt_a 1%nat empty_table);
      [simpl; lia | reflexivity | reflexivity | reflexivity].
Defined.

Lemma intra_option_learn_frame_witness :
  let env := corridor 5 [opt_same_hash] in
  last [0; 1]%nat = Some 1%nat
  /\ same_off_state (hash 1%nat) two_states
       (snd (intra_option_learn env (params 0) [0; 1]%nat [1]
               opt_same_hash two_states)).
Proof.
  split; [reflexivity |].
  apply (intra_option_learn_frame (corridor 5 [opt_same_hash]) (params 0)
           [0; 1]%nat [1] opt_same_hash 1%nat two_states).
  reflexivity.
Defined.

Lemma corridor_terminal_consistent (goal : nat)
    (options : list (Option nat nat)) :
  env_terminal_consistent (corridor goal options).
Proof. intros action e H. exact H. Qed.

Lemma run_agent_never_returns_witness :
  let env := corridor 3 [opt_outer] in
  (env_terminal_consistent env
   /\ stack_inv env (init env 0%nat)
   /\ (0 < 1)%Z)
  /\ forall result : list (list Q),
       fst (run_agent env (params 1) (constant_source (1 # 2)) 50 1
              (init env 0%nat)) <> Ok result.
Proof.
  split.
  - split; [apply corridor_terminal_consistent |].
    split; [apply stack_inv_init | lia].
  - intros result.
    apply (run_agent_never_returns (corridor 3 [opt_outer]) (params 1)
             (constant_source (1 # 2)) 50%nat 1%Z
             (init (corridor 3 [opt_outer]) 0%nat) result
             (corridor_terminal_consistent 3 _)
             (stack_inv_init (corridor 3 [opt_outer]) 0%nat)).
    lia.
Defined.

Lemma record_step_appends_everywhere_witness :
  let env := corridor 5 [opt_a] in
  let w := snd (push_option env opt_a 0%nat (init env 0%nat)) in
  let after := record_step env 1%nat 1 w in
  stack_inv env w
  /\ fst after = Ok tt
  /\ executing_options_states env (snd after)
     = (fun ss => ss ++ [1%nat]) <$> executing_options_states env w
  /\ executing_options_rewards env (snd after)
     = (fun rs => rs ++ [1]) <$> executing_options_rewards env w
  /\ executing_options env (snd after) = executing_options env w
  /\ table env (snd after) = table env w
  /\ env_calls env (snd after) = env_calls env w.
Proof.
  assert (Hinv : stack_inv (corridor 5 [opt_a])
                   (snd (push_option (corridor 5 [opt_a]) opt_a 0%nat
                           (init (corridor 5 [opt_a]) 0%nat)))).
  { apply push_option_inv, stack_inv_init. }
  split; [exact Hinv |].
  apply (record_step_appends_everywhere (corridor 5 [opt_a]) 1%nat 1 _ Hinv).
Defined.

Lemma unwind_options_empties_witness :
  let env := corridor 5 [opt_a] in
  let w := with_stacks env [opt_a] [[0; 1]%nat] [[1]] (init env 0%nat) in
  let after := unwind_options env (params 0) 1 w in
  after = (Ok tt, snd after)
  /\ executing_options env (snd after) = [].
Proof.
  cbv zeta.
  assert (Hrun : unwind_options (corridor 5 [opt_a]) (params 0) 1
                   (with_stacks (corridor 5 [opt_a]) [opt_a] [[0; 1]%nat] [[1]]
                      (init (corridor 5 [opt_a]) 0%nat))
                 = (Ok tt,
                    snd (unwind_options (corridor 5 [opt_a]) (params 0) 1
                           (with_stacks (corridor 5 [opt_a]) [opt_a]
                              [[0; 1]%nat] [[1]]
                              (init (corridor 5 [opt_a]) 0%nat))))).
  { rewrite (surjective_pairing (unwind_options _ _ _ _)) at 1.
    f_equal; try (vm_compute; reflexivity). }
  split; [exact Hrun |].
  exact (unwind_options_empties (corridor 5 [opt_a]) (params 0) 1 _ _ Hrun).
Defined.

Lemma inner_loops_terminate_witness :
  let env := corridor 5 [opt_a] in
  let w := with_stacks env [opt_a] [[0; 1]%nat] [[1]] (init env 0%nat) in
  (length (executing_options env w) <= 1)%nat
  /\ fst (terminate_options env (params 0) (constant_source (1 # 2)) 1 1%nat w)
     <> OutOfFuel
  /\ fst (unwind_options env (params 0) 1 w) <> OutOfFuel.
Proof.
  split; [simpl; lia |].
  apply (inner_loops_terminate (corridor 5 [opt_a]) (params 0)
           (constant_source (1 # 2)) 1 1%nat
           (with_stacks (corridor 5 [opt_a]) [opt_a] [[0; 1]%nat] [[1]]
              (init (corridor 5 [opt_a]) 0%nat))).
  simpl. lia.
Defined.

Lemma select_action_follows_top_witness :
  let env := corridor 5 [opt_outer] in
  let w := with_stacks env [opt_outer] [[0%nat]] [[]] (init env 0%nat) in
  executing_options env w = [] ++ [opt_outer]
  /\ select_action env (params 0) (constant_source (1 # 2)) 0%nat w
     = (Ok (policy opt_outer 0%nat), w).
Proof.
  split; [reflexivity |].
  apply (select_action_follows_top (corridor 5 [opt_outer]) (params 0)
           (constant_source (1 # 2)) 0%nat
           (with_stacks (corridor 5 [opt_outer]) [opt_outer] [[0%nat]] [[]]
              (init (corridor 5 [opt_outer]) 0%nat))
           [] opt_outer).
  reflexivity.
Defined.

Lemma select_action_explores_available_witness :
  let env := corridor 5 [opt_a; opt_b] in
  let rng := constant_source (1 # 2) in
  let w := init env 0%nat in
  (executing_options env w = []
   /\ Qlt_bool (uniform rng (random_position env w)) (epsilon (params 1)) = true
   /\ get_available_options env 0%nat <> [])
  /\ exists o : Option nat nat,
       o ∈ get_available_options env 0%nat
       /\ select_action env (params 1) rng 0%nat w
          = (Ok (Delegate o), advance_random env (advance_random env w)).
Proof.
  split.
  - split; [reflexivity |]. split; [reflexivity | discriminate].
  - apply (select_action_explores_available (corridor 5 [opt_a; opt_b])
             (params 1) (constant_source (1 # 2)) 0%nat
             (init (corridor 5 [opt_a; opt_b]) 0%nat) eq_refl eq_refl).
    discriminate.
Defined.

Lemma roll_termination_cases_witness :
  let env := corridor 5 [opt_a] in
  let rng := constant_source (1 # 2) in
  let w := init env 0%nat in
  (uniform rng (random_position env w) <= 1
   /\ 1 <= termination opt_a 1%nat)
  /\ fst (_roll_termination env rng opt_a 1%nat w) = Ok true.
Proof.
  assert (Hu : uniform (constant_source (1 # 2))
                 (random_position (corridor 5 [opt_a])
                    (init (corridor 5 [opt_a]) 0%nat)) <= 1)
    by (unfold Qle; simpl; lia).
  assert (Hone : 1 <= termination opt_a 1%nat) by (unfold Qle; simpl; lia).
  split; [split; assumption |].
  exact (proj1 (proj2 (roll_termination_cases (corridor 5 [opt_a])
                         (constant_source (1 # 2)) opt_a 1%nat
                         (init (corridor 5 [opt_a]) 0%nat)))
           Hu Hone).
Defined.

Lemma intra_option_learn_updates_all_initiable_witness :
  let env := corridor 5 [opt_same_hash; opt_other_action] in
  let after := intra_option_learn env (params 0) [0; 1]%nat [1]
                 opt_same_hash empty_table in
  (length [0; 1]%nat = S (length [1])
   /\ last [0; 1]%nat = Some 1%nat
   /\ get_available_options env 1%nat <> []
   /\ (forall s : nat, s ∈ removelast [0; 1]%nat ->
         hash (policy opt_same_hash s) = hash opt_same_hash))
  /\ fst after = Ok tt
  /\ List.map fst (q_writes (snd after))
     = List.map fst (q_writes empty_table)
       ++ intra_option_keys env 1%nat (removelast [0; 1]%nat).
Proof.
  split.
  - split; [reflexivity |]. split; [reflexivity |].
    split; [discriminate | intros s _; reflexivity].
  - apply (intra_option_learn_updates_all_initiable
             (corridor 5 [opt_same_hash; opt_other_action]) (params 0)
             [0; 1]%nat [1] opt_same_hash 1%nat empty_table);
      [reflexivity | reflexivity | discriminate | intros s _; reflexivity].
Defined.

Lemma intra_option_learn_changes_nothing_witness :
  let env := corridor 5 [opt_a; opt_b] in
  (forall s : nat, hash (policy opt_a s) <> hash opt_a)
  /\ snd (intra_option_learn env (params 0) [0; 1; 2]%nat [1; 1] opt_a two_values)
     = two_values.
Proof.
  split; [intros s; discriminate |].
  apply (intra_option_learn_changes_nothing (corridor 5 [opt_a; opt_b])
           (params 0) [0; 1; 2]%nat [1; 1] opt_a two_values).
  intros s. discriminate.
Defined.

(** ** The two-rooms gridworld *)

Import TwoRooms.

Local Open Scope string_scope.
Local Open Scope Z_scope.

(** The floor cells of the grid, row by row. *)
Lemma legal_state_cases (s : TwoRoomsState) :
  is_state_legal s = Ok true ->
  exists y x : Z,
    s = {| pos := (y, x) |}
    /\ (y = 0 \/ y = 1 \/ y = 2)
    /\ (x = 0 \/ x = 1 \/ x = 2 \/ x = 3 \/ x = 4 \/ x = 5 \/ x = 6)
    /\ (x = 3 -> y = 1).
Proof.
  destruct s as [[y x]]. unfold is_state_legal. cbn [pos].
  rewrite !Z.gtb_ltb.
  destruct (Z.ltb_spec y 0); [discriminate |].
  destruct (Z.ltb_spec 2 y); [discriminate |].
  destruct (Z.ltb_spec x 0); [discriminate |].
  destruct (Z.ltb_spec 6 x); [discriminate |].
  cbn [orb]. intros Hcell. exists y, x.
  assert (Hy : y = 0 \/ y = 1 \/ y = 2) by lia.
  assert (Hx : x = 0 \/ x = 1 \/ x = 2 \/ x = 3 \/ x = 4 \/ x = 5 \/ x = 6)
    by lia.
  repeat split; try assumption.
  intros ->. destruct Hy as [-> | [-> | ->]];
    [discriminate Hcell | reflexivity | discriminate Hcell].
Qed.

Ltac each_legal_state H :=
  apply legal_state_cases in H as (? & ? & -> & Hy & Hx & Hdoor);
  destruct Hy as [-> | [-> | ->]];
  destruct Hx as [-> | [-> | [-> | [-> | [-> | [-> | ->]]]]]];
  try (specialize (Hdoor eq_refl); discriminate Hdoor);
  clear Hdoor.

Lemma take_action_Some (s : TwoRoomsState) (action : string)
    (l : list TwoRoomsState) :
  take_action s action = Some l ->
  action = "N" \/ action = "S" \/ action = "W" \/ action = "E".
Proof.
  unfold take_action. destruct (pos s) as [y x].
  destruct (String.eqb_spec action "N"); [auto |].
  destruct (String.eqb_spec action "S"); [auto |].
  destruct (String.eqb_spec action "W"); [auto |].
  destruct (String.eqb_spec action "E"); [auto |].
  discriminate.
Qed.

(** X22. In every legal state, [get_available_actions] returns normally,
    and an action is among those it returns exactly when taking it leads to
    one state and this state is legal: the available actions never lead into
    a wall or off the grid, and no such move is left out. *)
Theorem available_actions_lead_to_legal_states (s : TwoRoomsState) :
  is_state_legal s = Ok true ->
  exists available_actions : list string,
    get_available_actions s = Ok available_actions
    /\ forall action : string,
         action ∈ available_actions <->
         exists s' : TwoRoomsState,
           take_action s action = Some [s'] /\ is_state_legal s' = Ok true.
Proof.
  intros Hlegal. each_legal_state Hlegal;
    (eexists; split; [vm_compute; reflexivity |]; intros action; split;
     [ intros Hin;
       repeat (apply elem_of_cons in Hin as [-> | Hin]);
       try (apply elem_of_nil in Hin; contradiction);
       eexists; split; vm_compute; reflexivity
     | intros (s' & Htake & Hs');
       destruct (take_action_Some _ _ _ Htake) as [-> | [-> | [-> | ->]]];
       vm_compute in Htake; injection Htake as <-;
       vm_compute in Hs'; try discriminate Hs';
       repeat first [ apply list_elem_of_here | apply list_elem_of_further ] ]).
Qed.

Lemma move_Some (s s' : TwoRoomsState) (action : string) :
  move s action = Some s' ->
  (action = "N" \/ action = "S" \/ action = "W" \/ action = "E")
  /\ is_action_legal s action = Ok true
  /\ take_action s action = Some [s'].
Proof.
  unfold move. intros Hmove.
  destruct (is_action_legal s action) as [[|] | |]; try discriminate Hmove.
  destruct (take_action s action) as [[| s1 [| s2 l]] |] eqn:Htake;
    try discriminate Hmove.
  injection Hmove as ->.
  split; [exact (take_action_Some _ _ _ Htake) | split; reflexivity].
Qed.

(** X23. Legal moves can be undone: when an action is legal in a legal state
    and leads to [s'], the opposite action is legal in [s'] and leads back. *)
Theorem legal_moves_are_reversible (s s' : TwoRoomsState) (action : string) :
  is_state_legal s = Ok true ->
  move s action = Some s' ->
  move s' (opposite action) = Some s.
Proof.
  intros Hlegal Hmove.
  destruct (move_Some _ _ _ Hmove) as [Haction _].
  each_legal_state Hlegal;
    destruct Haction as [-> | [-> | [-> | ->]]];
    vm_compute in Hmove; try discriminate Hmove;
    injection Hmove as <-; vm_compute; reflexivity.
Qed.

Lemma getitem_beyond {A : Type} (l : list A) (i : Z) :
  Z.of_nat (length l) <= i -> getitem l i = Raise IndexError.
Proof.
  intros Hi. unfold getitem.
  destruct (Z.ltb_spec i 0); [lia |].
  destruct (Z.leb_spec 0 i); [| lia].
  destruct (Z.ltb_spec i (Z.of_nat (length l))); [lia |].
  reflexivity.
Qed.

Lemma cell_right_of_grid (y x : Z) :
  0 <= y <= 2 -> 6 < x -> cell y x = Raise IndexError.
Proof.
  intros Hy Hx. assert (Hcases : y = 0 \/ y = 1 \/ y = 2) by lia.
  destruct Hcases as [-> | [-> | ->]]; unfold cell; cbn [and_then getitem];
    simpl; apply getitem_beyond; simpl; lia.
Qed.

(** X24. Bounds: right of the grid (rows 0 to 2, any column beyond 6)
    [is_state_legal] answers [False] without reading the grid, whereas
    [get_available_actions] reads the grid at the column and raises
    [IndexError]. *)
Theorem right_of_grid (y x : Z) :
  0 <= y <= 2 -> 6 < x ->
  is_state_legal {| pos := (y, x) |} = Ok false
  /\ get_available_actions {| pos := (y, x) |} = Raise IndexError.
Proof.
  intros Hy Hx. split.
  - unfold is_state_legal. cbn [pos]. rewrite !Z.gtb_ltb.
    destruct (Z.ltb_spec y 0); [lia |].
    destruct (Z.ltb_spec 2 y); [lia |].
    destruct (Z.ltb_spec x 0); [lia |].
    destruct (Z.ltb_spec 6 x); [reflexivity | lia].
  - assert (Hcases : y = 0 \/ y = 1 \/ y = 2) by lia.
    unfold get_available_actions. cbn [pos].
    destruct Hcases as [-> | [-> | ->]]; unfold guarded_floor at 1.
    + change (0 - 1 >=? 0) with false. cbn [append_if and_then].
      unfold guarded_floor at 1. change (0 + 1 <=? 2) with true.
      rewrite (cell_right_of_grid (0 + 1) x) by lia. reflexivity.
    + change (1 - 1 >=? 0) with true.
      rewrite (cell_right_of_grid (1 - 1) x) by lia. reflexivity.
    + change (2 - 1 >=? 0) with true.
      rewrite (cell_right_of_grid (2 - 1) x) by lia. reflexivity.
Qed.

(** X25. From every legal state, following legal moves (down or up to the
    corridor of row 1, east along it, down at its end) reaches the terminal
    state [(2, 6)] within 8 moves. *)
Theorem terminal_state_reachable (s : TwoRoomsState) :
  is_state_legal s = Ok true ->
  exists goal : TwoRoomsState,
    walk 8 s = Some goal /\ is_terminal_state goal = true /\ pos goal = (2, 6).
Proof.
  intros Hlegal. each_legal_state Hlegal;
    (eexists; split; [vm_compute; reflexivity | split; reflexivity]).
Qed.

Ltac compute_available_actions :=
  match goal with
  | |- context [get_available_actions ?s] =>
      let r := eval vm_compute in (get_available_actions s) in
      change (get_available_actions s) with r
  end.

(** X26. In every legal state, [get_successors] returns normally, and the
    states it returns are exactly those a legal move leads to. *)
Theorem successors_are_legal_moves (s : TwoRoomsState) :
  is_state_legal s = Ok true ->
  exists successors : gset (Z * Z),
    get_successors s = Ok successors
    /\ forall p : Z * Z,
         p ∈ successors <-> exists action : string,
                              move s action = Some {| pos := p |}.
Proof.
  intros Hlegal. each_legal_state Hlegal;
    (eexists; split;
     [ unfold get_successors; compute_available_actions;
       cbn [set_union and_then take_action pos String.eqb Ascii.eqb Bool.eqb
            List.map];
       reflexivity
     | intros p; split;
       [ intros Hin; set_unfold in Hin;
         repeat match goal with
                | H : _ \/ _ |- _ => destruct H as [H | H]
                | H : False |- _ => contradiction
                end;
         subst p;
         first [ exists "N"; vm_compute; reflexivity
               | exists "S"; vm_compute; reflexivity
               | exists "W"; vm_compute; reflexivity
               | exists "E"; vm_compute; reflexivity ]
       | intros (action & Hmove);
         destruct (move_Some _ _ _ Hmove) as [[-> | [-> | [-> | ->]]] _];
         vm_compute in Hmove; try discriminate Hmove;
         injection Hmove as <-; set_unfold; auto 10 ] ]).
Qed.

(** *** At the door between the two rooms *)

Lemma available_actions_lead_to_legal_states_witness :
  is_state_legal {| pos := (1, 3) |} = Ok true
  /\ exists available_actions : list string,
       get_available_actions {| pos := (1, 3) |} = Ok available_actions
       /\ forall action : string,
            action ∈ available_actions <->
            exists s' : TwoRoomsState,
              take_action {| pos := (1, 3) |} action = Some [s']
              /\ is_state_legal s' = Ok true.
Proof.
  split; [reflexivity |].
  apply (available_actions_lead_to_legal_states {| pos := (1, 3) |}).
  reflexivity.
Defined.

Lemma legal_moves_are_reversible_witness :
  (is_state_legal {| pos := (1, 3) |} = Ok true
   /\ move {| pos := (1, 3) |} "E" = Some {| pos := (1, 4) |})
  /\ move {| pos := (1, 4) |} (opposite "E") = Some {| pos := (1, 3) |}.
Proof.
  split; [split; reflexivity |].
  apply (legal_moves_are_reversible {| pos := (1, 3) |} {| pos := (1, 4) |} "E");
    reflexivity.
Defined.

Lemma right_of_grid_witness :
  (0 <= 1 <= 2 /\ 6 < 7)
  /\ is_state_legal {| pos := (1, 7) |} = Ok false
  /\ get_available_actions {| pos := (1, 7) |} = Raise IndexError.
Proof.
  split; [lia |]. apply (right_of_grid 1 7); lia.
Defined.

Lemma terminal_state_reachable_witness :
  is_state_legal {| pos := (0, 0) |} = Ok true
  /\ exists goal : TwoRoomsState,
       walk 8 {| pos := (0, 0) |} = Some goal
       /\ is_terminal_state goal = true /\ pos goal = (2, 6).
Proof.
  split; [reflexivity |].
  apply (terminal_state_reachable {| pos := (0, 0) |}). reflexivity.
Defined.

Lemma successors_are_legal_moves_witness :
  is_state_legal {| pos := (1, 3) |} = Ok true
  /\ exists successors : gset (Z * Z),
       get_successors {| pos := (1, 3) |} = Ok successors
       /\ forall p : Z * Z,
            p ∈ successors <-> exists action : string,
                                 move {| pos := (1, 3) |} action
                                 = Some {| pos := p |}.
Proof.
  split; [reflexivity |].
  apply (successors_are_legal_moves {| pos := (1, 3) |}). reflexivity.
Defined.

(** ** The discounted return in binary64 *)

Section Binary64Rounding.

Import SpecFloat.
Import Binary64.

Local Open Scope Z_scope.



































End Binary64Rounding.


